(** * sqlx: mapping of query results onto Go structs

    A shallow embedding of [sqlx.go]: the field map of a struct type and its
    package-level cache ([getFieldmap], [fieldmapCache]), the resolution of
    result columns to field positions ([getFields], [setValues]), the
    scanners ([StructScan], [Row.StructScan], [Rows.StructScan]) and the two
    query functions [Select] and [Get].

    What the package takes from its libraries is modelled as follows.
    - [reflect]: a type is a term of [rtype]; [Kind], [Elem], [NumField] and
      [Field] panic where the library panics.  Struct types are taken to
      have exported fields only, the fields [reflect] lets a scanner take
      the address of.
    - [database/sql]: a cursor is a record [sql.Rows] with its columns, the
      rows still to be fetched, the row under the cursor and a closed flag.
      The conversion of a driver value into a field ([convertAssign]) is a
      parameter ([Driver]).
    - [strings.ToLower] is the ASCII case fold; identifiers are taken to be
      ASCII. *)

From Stdlib Require Import String Ascii.
From stdpp Require Import gmap strings list fin_maps countable.

Local Open Scope string_scope.

(** ** reflect: kinds and types *)

(** Kinds without an element type and without fields. *)
Inductive BasicKind :=
| Bool | Int | Int8 | Int16 | Int32 | Int64
| Uint | Uint8 | Uint16 | Uint32 | Uint64 | Uintptr
| Float32 | Float64 | Complex64 | Complex128
| Func | Interface | String | UnsafePointer.

Inductive Kind :=
| Invalid | Basic (b : BasicKind)
| Array | Chan | Map | Ptr | Slice | Struct.

(** [reflect.Type].  A struct field carries its name, the value of its [db]
    key in the struct tag (the empty string when the key is absent, which is
    what [Tag.Get] returns) and its type. *)
Inductive rtype :=
| TBasic (b : BasicKind)
| TArray (len : nat) (elem : rtype)
| TChan (elem : rtype)
| TMap (key elem : rtype)
| TPtr (elem : rtype)
| TSlice (elem : rtype)
| TStruct (fields : list StructField)
| TNamed (name : string) (underlying : rtype)
with StructField :=
| mkStructField (Name : string) (Tag_db : string) (Type_ : rtype).

Definition Name (f : StructField) : string :=
  match f with mkStructField n _ _ => n end.
Definition Tag_db (f : StructField) : string :=
  match f with mkStructField _ tg _ => tg end.
Definition Type_ (f : StructField) : rtype :=
  match f with mkStructField _ _ ty => ty end.

Global Instance BasicKind_eq_dec : EqDecision BasicKind.
Proof. solve_decision. Defined.
Global Instance Kind_eq_dec : EqDecision Kind.
Proof. solve_decision. Defined.

Definition BasicKind_to_nat (b : BasicKind) : nat :=
  match b with
  | Bool => 0 | Int => 1 | Int8 => 2 | Int16 => 3 | Int32 => 4 | Int64 => 5
  | Uint => 6 | Uint8 => 7 | Uint16 => 8 | Uint32 => 9 | Uint64 => 10
  | Uintptr => 11 | Float32 => 12 | Float64 => 13 | Complex64 => 14
  | Complex128 => 15 | Func => 16 | Interface => 17 | String => 18
  | UnsafePointer => 19
  end.

Definition BasicKind_of_nat (n : nat) : BasicKind :=
  match n with
  | 0 => Bool | 1 => Int | 2 => Int8 | 3 => Int16 | 4 => Int32 | 5 => Int64
  | 6 => Uint | 7 => Uint8 | 8 => Uint16 | 9 => Uint32 | 10 => Uint64
  | 11 => Uintptr | 12 => Float32 | 13 => Float64 | 14 => Complex64
  | 15 => Complex128 | 16 => Func | 17 => Interface | 18 => String
  | _ => UnsafePointer
  end.

Lemma BasicKind_of_to_nat b : BasicKind_of_nat (BasicKind_to_nat b) = b.
Proof. by destruct b. Qed.

(** Types as trees, for the countability [gmap] asks of its keys. *)
Fixpoint rtype_to_tree (t : rtype) : gen_tree (nat + string) :=
  match t with
  | TBasic b => GenLeaf (inl (BasicKind_to_nat b))
  | TArray n e => GenNode 0 [GenLeaf (inl n); rtype_to_tree e]
  | TChan e => GenNode 1 [rtype_to_tree e]
  | TMap k e => GenNode 2 [rtype_to_tree k; rtype_to_tree e]
  | TPtr e => GenNode 3 [rtype_to_tree e]
  | TSlice e => GenNode 4 [rtype_to_tree e]
  | TStruct fs => GenNode 5 (map field_to_tree fs)
  | TNamed n u => GenNode 6 [GenLeaf (inr n); rtype_to_tree u]
  end
with field_to_tree (f : StructField) : gen_tree (nat + string) :=
  match f with
  | mkStructField n tg ty =>
      GenNode 7 [GenLeaf (inr n); GenLeaf (inr tg); rtype_to_tree ty]
  end.

Fixpoint tree_to_rtype (g : gen_tree (nat + string)) : rtype :=
  match g with
  | GenLeaf (inl n) => TBasic (BasicKind_of_nat n)
  | GenNode 0 [GenLeaf (inl n); e] => TArray n (tree_to_rtype e)
  | GenNode 1 [e] => TChan (tree_to_rtype e)
  | GenNode 2 [k; e] => TMap (tree_to_rtype k) (tree_to_rtype e)
  | GenNode 3 [e] => TPtr (tree_to_rtype e)
  | GenNode 4 [e] => TSlice (tree_to_rtype e)
  | GenNode 5 fs =>
      TStruct (map (fun g' =>
        match g' with
        | GenNode 7 [GenLeaf (inr n); GenLeaf (inr tg); ty] =>
            mkStructField n tg (tree_to_rtype ty)
        | _ => mkStructField "" "" (TBasic Bool)
        end) fs)
  | GenNode 6 [GenLeaf (inr n); u] => TNamed n (tree_to_rtype u)
  | _ => TBasic Bool
  end.

Lemma tree_of_rtype_inv : ∀ t, tree_to_rtype (rtype_to_tree t) = t.
Proof.
  fix IH 1. intros [b|n e|e|k e|e|e|fs|n u]; simpl.
  - by rewrite BasicKind_of_to_nat.
  - by rewrite IH.
  - by rewrite IH.
  - by rewrite !IH.
  - by rewrite IH.
  - by rewrite IH.
  - f_equal. induction fs as [|[n tg ty] fs IHfs]; simpl; [done|].
    by rewrite IH, IHfs.
  - by rewrite IH.
Qed.

Global Instance rtype_eq_dec : EqDecision rtype.
Proof.
  intros a b.
  destruct (decide (rtype_to_tree a = rtype_to_tree b)) as [E|E].
  - left. by rewrite <- (tree_of_rtype_inv a), E, tree_of_rtype_inv.
  - right. by intros ->.
Defined.

Global Instance rtype_countable : Countable rtype :=
  inj_countable' rtype_to_tree tree_to_rtype tree_of_rtype_inv.

(** [t.Kind()]; a named type has the kind of its underlying type. *)
Fixpoint Kind_of (t : rtype) : Kind :=
  match t with
  | TBasic b => Basic b
  | TArray _ _ => Array
  | TChan _ => Chan
  | TMap _ _ => Map
  | TPtr _ => Ptr
  | TSlice _ => Slice
  | TStruct _ => Struct
  | TNamed _ u => Kind_of u
  end.

(** ** Results: a value, a returned [error], or a panic *)

Inductive error :=
| errors_New (msg : string)          (* errors.New in this package *)
| sql_ErrNoRows
| sql_RowsClosed                     (* "sql: Rows are closed" *)
| sql_ScanWithoutNext                (* "sql: Scan called without calling Next" *)
| sql_ScanArity (want got : nat)     (* "sql: expected n destination arguments ..." *)
| sql_ScanError (column : nat)       (* convertAssign failed on that column *)
| driver_error (msg : string).       (* an error reported by the queryer *)

Global Instance error_eq_dec : EqDecision error.
Proof. solve_decision. Defined.

Inductive Res (A : Type) :=
| Ok (a : A)
| Err (e : error)
| Panic (msg : string).
Arguments Ok {A} a.
Arguments Err {A} e.
Arguments Panic {A} msg.

(** [t.Elem()]: panics unless the kind is Array, Chan, Map, Ptr or Slice. *)
Fixpoint Elem (t : rtype) : Res rtype :=
  match t with
  | TArray _ e | TChan e | TMap _ e | TPtr e | TSlice e => Ok e
  | TNamed _ u => Elem u
  | TBasic _ | TStruct _ => Panic "reflect: Elem of invalid type"
  end.

(** The fields of a type of kind Struct. *)
Fixpoint Fields (t : rtype) : option (list StructField) :=
  match t with
  | TStruct fs => Some fs
  | TNamed _ u => Fields u
  | _ => None
  end.

(** [t.NumField()]: panics unless the kind is Struct. *)
Definition NumField (t : rtype) : Res nat :=
  match Fields t with
  | Some fs => Ok (length fs)
  | None => Panic "reflect: NumField of non-struct type"
  end.

(** [t.Field(i)]: panics unless the kind is Struct and [i] is in range. *)
Definition Field (t : rtype) (i : nat) : Res StructField :=
  match Fields t with
  | Some fs =>
      match fs !! i with
      | Some f => Ok f
      | None => Panic "reflect: Field index out of bounds"
      end
  | None => Panic "reflect: Field of non-struct type"
  end.

(** ** strings.ToLower, on ASCII *)

Definition lower_ascii (c : ascii) : ascii :=
  let n := nat_of_ascii c in
  if ((65 <=? n) && (n <=? 90))%nat then ascii_of_nat (n + 32)%nat else c.

Fixpoint strings_ToLower (s : string) : string :=
  match s with
  | EmptyString => EmptyString
  | String.String c r => String.String (lower_ascii c) (strings_ToLower r)
  end.

(** ** Field maps and their cache *)

(** [type fieldmap map[string]int].  A Go map is a reference: the maps live
    in [fmheap], and a [fieldmap] value is the address of one of them. *)
Record Mem := mkMem {
  fmheap : list (gmap string nat);
  fieldmapCache : gmap rtype nat;
}.

Definition emptyMem : Mem := mkMem [] ∅.

(** [fm[name] = i] on the map at address [l]. *)
Definition fm_store (l : nat) (name : string) (i : nat) (m : Mem) : Mem :=
  mkMem (alter (insert name i) l (fmheap m)) (fieldmapCache m).

Definition BaseSliceType (t : rtype) : Res rtype :=
  match Kind_of t with
  | Ptr => Elem t              (* t = t.Elem(), then falls through *)
  | Slice => Ok t
  | _ => Err (errors_New "Destination must be a slice.")
  end.

Definition BaseStructType (t : rtype) : Res rtype :=
  match Kind_of t with
  | Ptr => Elem t              (* t = t.Elem(), then falls through *)
  | Struct => Ok t
  | _ => Err (errors_New "Destination must be a struct type.")
  end.

(** The key under which [getFieldmap] files a field. *)
Definition fieldName (f : StructField) : string :=
  let name := strings_ToLower (Name f) in
  let tag := Tag_db f in
  let name := if decide (tag ≠ "") then tag else name in
  name.

(** The loop of [getFieldmap]: [n] iterations are left, [i] is the counter. *)
Fixpoint getFieldmap_loop (t : rtype) (l : nat) (n i : nat) (m : Mem)
  : Res unit * Mem :=
  match n with
  | 0 => (Ok tt, m)
  | S n' =>
      match Field t i with
      | Ok f => getFieldmap_loop t l n' (S i) (fm_store l (fieldName f) i m)
      | Err e => (Err e, m)
      | Panic p => (Panic p, m)
      end
  end.

Definition getFieldmap (t : rtype) (m : Mem) : Res nat * Mem :=
  match BaseStructType t with
  | Err e => (Err e, m)
  | Panic p => (Panic p, m)
  | Ok t =>
      match fieldmapCache m !! t with
      | Some fm => (Ok fm, m)
      | None =>
          let fm := length (fmheap m) in
          let m := mkMem (fmheap m ++ [∅]) (fieldmapCache m) in
          match NumField t with
          | Err e => (Err e, m)
          | Panic p => (Panic p, m)
          | Ok n =>
              match getFieldmap_loop t fm n 0 m with
              | (Ok _, m) =>
                  (Ok fm, mkMem (fmheap m) (<[t := fm]> (fieldmapCache m)))
              | (Err e, m) => (Err e, m)
              | (Panic p, m) => (Panic p, m)
              end
          end
      end
  end.

(** [getFields]: the positions of the columns, and the error of the first
    column the field map does not know.  The slice is returned in both
    cases; the positions not reached are 0, as [make] left them.  The
    [fmt.Println(fm)] before the error is returned writes to standard
    output and is left out. *)
Fixpoint getFields_loop (fm : gmap string nat) (columns : list string)
    (i : nat) (fields : list nat) : list nat * option error :=
  match columns with
  | [] => (fields, None)
  | name :: rest =>
      match fm !! name with
      | None =>
          (fields,
           Some (errors_New ("Could not find name " ++ name ++ " in interface")))
      | Some num => getFields_loop fm rest (S i) (<[i := num]> fields)
      end
  end.

Definition getFields (fm : gmap string nat) (columns : list string)
  : list nat * option error :=
  getFields_loop fm columns 0 (replicate (length columns) 0).

(** ** Computations over a state

    A Go function that works on mutable objects is a function from the
    state to a result and the new state; it returns, fails with an [error]
    or panics. *)
Definition M (S A : Type) : Type := S → Res A * S.

Definition ret {S A} (a : A) : M S A := λ s, (Ok a, s).
Definition throw {S A} (e : error) : M S A := λ s, (Err e, s).
Definition panic {S A} (msg : string) : M S A := λ s, (Panic msg, s).
Definition bind {S A B} (m : M S A) (k : A → M S B) : M S B :=
  λ s, match m s with
       | (Ok a, s') => k a s'
       | (Err e, s') => (Err e, s')
       | (Panic p, s') => (Panic p, s')
       end.
Definition liftR {S A} (r : Res A) : M S A := λ s, (r, s).
Definition gets {S A} (f : S → A) : M S A := λ s, (Ok (f s), s).
Definition modify {S} (f : S → S) : M S unit := λ s, (Ok tt, f s).

(** [defer d]: [d] runs when the body is left, however it is left. *)
Definition defer {S A} (d : S → S) (body : M S A) : M S A :=
  λ s, let (r, s') := body s in (r, d s').

Notation "x <- m ;; k" := (bind m (λ x, k))
  (at level 100, m at next level, right associativity).
Notation "m ;;; k" := (bind m (λ _, k))
  (at level 100, right associativity).

(** ** database/sql *)

(** What the package takes from the driver: the values the database hands
    over ([driver.Value]), the values struct fields hold, the zero value of
    a type, and [convertAssign], which converts a driver value for a
    destination of a given type or fails. *)
Class Driver := {
  dvalue : Type;
  gvalue : Type;
  zeroValue : rtype → gvalue;
  convertAssign : rtype → dvalue → option gvalue;
}.

(** A driver for the examples: integers and strings, converted only to a
    field of their own kind. *)
Inductive sample_value :=
| SInt (n : Z)
| SStr (s : string)
| SNull.

Definition sampleDriver : Driver := {|
  dvalue := sample_value;
  gvalue := sample_value;
  zeroValue t :=
    match Kind_of t with
    | Basic Int => SInt 0
    | Basic String => SStr ""
    | _ => SNull
    end;
  convertAssign t v :=
    match Kind_of t, v with
    | Basic Int, SInt n => Some (SInt n)
    | Basic String, SStr s => Some (SStr s)
    | _, _ => None
    end;
|}.

(** An [interface{}] as far as the scanners look into it: the nil
    interface, or a value with its dynamic type; for a pointer, whether it
    is nil. *)
Inductive iface :=
| INil
| Dyn (t : rtype) (nilptr : bool).

(** [reflect.ValueOf(dest).Kind()]. *)
Definition ValueKind (v : iface) : Kind :=
  match v with
  | INil => Invalid
  | Dyn t _ => Kind_of t
  end.

(** The address of a field of the struct being scanned, as an
    [interface{}] holding a pointer of the field's type. *)
Record fieldptr := mkfieldptr {
  fp_pos : nat;
  fp_type : rtype;
}.

(** [sql.RawBytes], the one destination type [Row.Scan] refuses. *)
Definition RawBytes : rtype := TNamed "sql.RawBytes" (TSlice (TBasic Uint8)).

Section WithDriver.
Context `{D : Driver}.

(** [sql.Rows]: the column names, the rows not fetched yet, the row under
    the cursor ([lastcols]) and whether the cursor was closed. *)
Record sql_Rows := mksql_Rows {
  columns : list string;
  pending : list (list dvalue);
  lastcols : option (list dvalue);
  closed : bool;
}.

Definition Rows_Close (rs : sql_Rows) : sql_Rows :=
  mksql_Rows (columns rs) (pending rs) (lastcols rs) true.

Definition Rows_Columns (rs : sql_Rows) : Res (list string) :=
  if closed rs then Err sql_RowsClosed else Ok (columns rs).

(** [Next] fetches the next row; at the end of the rows it closes the
    cursor and returns false. *)
Definition Rows_Next (rs : sql_Rows) : bool * sql_Rows :=
  if closed rs then (false, rs)
  else match pending rs with
       | [] => (false, Rows_Close rs)
       | r :: rest => (true, mksql_Rows (columns rs) rest (Some r) (closed rs))
       end.

(** The cells of the current row, converted and stored one after the other
    through the destination pointers; the first failure ends the scan and
    the cells stored before it stay stored. *)
Fixpoint scan_cells (i : nat) (dest : list (option fieldptr))
    (src : list dvalue) (rec : list gvalue) : option error * list gvalue :=
  match dest, src with
  | d :: dest', sv :: src' =>
      match d with
      | None => (Some (sql_ScanError i), rec)
      | Some p =>
          match convertAssign (fp_type p) sv with
          | None => (Some (sql_ScanError i), rec)
          | Some g => scan_cells (S i) dest' src' (<[fp_pos p := g]> rec)
          end
      end
  | _, _ => (None, rec)
  end.

Definition Rows_Scan (rs : sql_Rows) (dest : list (option fieldptr))
    (rec : list gvalue) : option error * list gvalue :=
  if closed rs then (Some sql_RowsClosed, rec)
  else match lastcols rs with
       | None => (Some sql_ScanWithoutNext, rec)
       | Some src =>
           if decide (length dest ≠ length src)
           then (Some (sql_ScanArity (length src) (length dest)), rec)
           else scan_cells 0 dest src rec
       end.

(** ** The queryer and the state the scanners work on *)

(** [type Row struct { rows sql.Rows; err error }]. *)
Record Row := mkRow {
  rows : sql_Rows;
  err : option error;
}.

(** The [Queryer] interface: any implementation, given by what its methods
    return. *)
Record Queryer := mkQueryer {
  Query : string → list dvalue → Res sql_Rows;
  QueryRowx : string → list dvalue → Res Row;
}.

(** An element of the destination slice: a struct, or a pointer to a
    freshly allocated one. *)
Inductive elem :=
| EValue (rec : list gvalue)
| EPointer (rec : list gvalue).

(** The state: the field maps and their cache, the queries issued so far,
    the cursor obtained from the queryer if any, and what the destination
    points at: the slice [Select] appends to and the struct [Get] fills. *)
Record St := mkSt {
  mem : Mem;
  queries : list string;
  cursor : option sql_Rows;
  destSlice : list elem;
  destStruct : list gvalue;
}.

Definition set_mem (m : Mem) (s : St) : St :=
  mkSt m (queries s) (cursor s) (destSlice s) (destStruct s).
Definition set_cursor (c : option sql_Rows) (s : St) : St :=
  mkSt (mem s) (queries s) c (destSlice s) (destStruct s).
Definition set_destSlice (d : list elem) (s : St) : St :=
  mkSt (mem s) (queries s) (cursor s) d (destStruct s).
Definition set_destStruct (d : list gvalue) (s : St) : St :=
  mkSt (mem s) (queries s) (cursor s) (destSlice s) d.
Definition log_query (q : string) (s : St) : St :=
  mkSt (mem s) (queries s ++ [q]) (cursor s) (destSlice s) (destStruct s).

Definition liftMem {A} (f : Mem → Res A * Mem) : M St A :=
  λ s, let (r, m) := f (mem s) in (r, set_mem m s).

(** A method call on the cursor; on a nil [*sql.Rows] it panics. *)
Definition withRows {A} (f : sql_Rows → Res A * sql_Rows) : M St A :=
  λ s, match cursor s with
       | None => (Panic "nil pointer dereference", s)
       | Some rs => let (r, rs') := f rs in (r, set_cursor (Some rs') s)
       end.

Definition closeCursor (s : St) : St :=
  set_cursor (Rows_Close <$> cursor s) s.

(** The map behind a [fieldmap] value; an address outside the heap reads
    as the nil map, which has no entries. *)
Definition fm_deref (fm : nat) (m : Mem) : gmap string nat :=
  default ∅ (fmheap m !! fm).

(** ** reflect values *)

(** [reflect.Indirect(reflect.ValueOf(v))], by its type: [None] is the zero
    Value, which is what the nil interface and a nil pointer give. *)
Definition Indirect (v : iface) : option rtype :=
  match v with
  | INil => None
  | Dyn t nilptr =>
      if decide (Kind_of t = Ptr)
      then if nilptr then None
           else match Elem t with Ok e => Some e | _ => None end
      else Some t
  end.

(** [v.Type()]: panics on the zero Value. *)
Definition Value_Type (v : option rtype) : Res rtype :=
  match v with
  | Some t => Ok t
  | None => Panic "reflect: call of reflect.Value.Type on zero Value"
  end.

(** [v.Field(i)]: panics on the zero Value, on a value that is not a
    struct and on an index out of range. *)
Definition Value_Field (v : option rtype) (i : nat) : Res StructField :=
  match v with
  | Some t => Field t i
  | None => Panic "reflect: call of reflect.Value.Field on zero Value"
  end.

(** [reflect.New(base)], indirected: a struct with every field zero. *)
Definition newRecord (base : rtype) : list gvalue :=
  match Fields base with
  | Some fs => map (λ f, zeroValue (Type_ f)) fs
  | None => []
  end.

(** ** setValues *)

Fixpoint setValues_loop (vptr : option rtype) (fields : list nat) (i : nat)
    (values : list (option fieldptr)) : Res (list (option fieldptr)) :=
  match fields with
  | [] => Ok values
  | field :: rest =>
      match Value_Field vptr field with
      | Ok f =>
          if decide (i < length values)
          then setValues_loop vptr rest (S i)
                 (<[i := Some (mkfieldptr field (Type_ f))]> values)
          else Panic "index out of range"
      | Err e => Err e
      | Panic p => Panic p
      end
  end.

Definition setValues (fields : list nat) (vptr : option rtype)
    (values : list (option fieldptr)) : Res (list (option fieldptr)) :=
  setValues_loop vptr fields 0 values.

(** ** StructScan: a whole result into a slice *)

(** [direct.Set(reflect.Append(direct, x))]: panics unless [direct] is a
    slice that can be set. *)
Definition appendDest (direct : option rtype) (x : elem) : M St unit :=
  match direct with
  | None => panic "reflect: call of reflect.Append on zero Value"
  | Some t =>
      if decide (Kind_of t = Slice)
      then modify (λ s, set_destSlice (destSlice s ++ [x]) s)
      else panic "reflect: call of reflect.Append on a value that is no slice"
  end.

Definition out_of_fuel : string := "out of fuel".

(** The loop [for rows.Next() { ... }].  [fuel] bounds the iterations of the
    model; [StructScan] passes more than there are rows to fetch. *)
Fixpoint StructScan_loop (fuel : nat) (base : rtype) (isPtr : bool)
    (direct : option rtype) (fields : list nat)
    (values : list (option fieldptr)) : M St unit :=
  match fuel with
  | 0 => panic out_of_fuel
  | S fuel' =>
      more <- withRows (λ rs, let (b, rs') := Rows_Next rs in (Ok b, rs'));;
      if more : bool then
        (* vp = reflect.New(base); v = reflect.Indirect(vp) *)
        let v := newRecord base in
        values <- liftR (setValues fields (Some base) values);;
        r <- withRows (λ rs, (Ok (Rows_Scan rs values v), rs));;
        match r with
        | (Some e, _) => throw e
        | (None, v) =>
            appendDest direct (if isPtr then EPointer v else EValue v);;;
            StructScan_loop fuel' base isPtr direct fields values
        end
      else ret tt
  end.

Definition must_pass_pointer : error :=
  errors_New "Must pass a pointer, not a value, to StructScan destination.".

Definition StructScan (dest : iface) : M St unit :=
  let value := dest in
  if decide (ValueKind value ≠ Ptr) then throw must_pass_pointer else
  let direct := Indirect value in
  vt <- liftR (match value with
               | Dyn t _ => Ok t
               | INil => Panic "reflect: Type of zero Value"
               end);;
  slice <- liftR (BaseSliceType vt);;
  selem <- liftR (Elem slice);;
  let isPtr := bool_decide (Kind_of selem = Ptr) in
  base <- liftR (BaseStructType selem);;
  fm <- liftMem (getFieldmap base);;
  columns <- withRows (λ rs, (Rows_Columns rs, rs));;
  fmv <- gets (λ s, fm_deref fm (mem s));;
  match getFields fmv columns with
  | (_, Some e) => throw e
  | (fields, None) =>
      let values := replicate (length columns) None in
      fuel <- gets (λ s, S (length (from_option pending [] (cursor s))));;
      StructScan_loop fuel base isPtr direct fields values
  end.

(** ** Row: Scan, Columns, StructScan *)

Definition isRawBytesPtr (dp : option fieldptr) : bool :=
  match dp with
  | Some p => bool_decide (fp_type p = RawBytes)
  | None => false
  end.

(** [Row.Scan], scanning into the fields of the destination struct. *)
Definition Row_Scan (r_err : option error) (dest : list (option fieldptr))
  : M St unit :=
  match r_err with
  | Some e => throw e
  | None =>
      if existsb isRawBytesPtr dest
      then throw (errors_New "sql: RawBytes isn't allowed on Row.Scan")
      else
        defer closeCursor
          (more <- withRows (λ rs, let (b, rs') := Rows_Next rs in (Ok b, rs'));;
           if negb more then throw sql_ErrNoRows else
           λ s, match cursor s with
                | None => (Panic "nil pointer dereference", s)
                | Some rs =>
                    match Rows_Scan rs dest (destStruct s) with
                    | (Some e, rec) => (Err e, set_destStruct rec s)
                    | (None, rec) => (Ok tt, set_destStruct rec s)
                    end
                end)
  end.

Definition Row_Columns (r_err : option error) : M St (list string) :=
  match r_err with
  | Some e => throw e
  | None => withRows (λ rs, (Rows_Columns rs, rs))
  end.

Definition Row_StructScan (r_err : option error) (dest : iface) : M St unit :=
  let v := dest in
  if decide (ValueKind v ≠ Ptr) then throw must_pass_pointer else
  let direct := Indirect v in
  dt <- liftR (Value_Type direct);;
  base <- liftR (BaseStructType dt);;
  fm <- liftMem (getFieldmap base);;
  columns <- Row_Columns r_err;;
  fmv <- gets (λ s, fm_deref fm (mem s));;
  match getFields fmv columns with
  | (_, Some e) => throw e
  | (fields, None) =>
      let values := replicate (length columns) None in
      values <- liftR (setValues fields (Indirect v) values);;
      Row_Scan r_err values
  end.

(** ** Select and Get *)

Definition Select (q : Queryer) (dest : iface) (query : string)
    (args : list dvalue) : M St unit :=
  rows <- (modify (log_query query);;; liftR (Query q query args));;
  modify (set_cursor (Some rows));;;
  defer closeCursor (StructScan dest).

Definition Get (q : Queryer) (dest : iface) (query : string)
    (args : list dvalue) : M St unit :=
  r <- (modify (log_query query);;; liftR (QueryRowx q query args));;
  modify (set_cursor (Some (rows r)));;;
  Row_StructScan (err r) dest.

(** ** Rows.StructScan: one row, with the column positions cached *)

(** [type Rows struct { sql.Rows; started bool; fields []int;
    base reflect.Type; values []interface{} }]; [base] is never written
    nor read and is left out. *)
Record Rows := mkRows {
  Rows_sql : sql_Rows;
  started : bool;
  fields : list nat;
  values : list (option fieldptr);
}.

(** The state of [Rows.StructScan]: the field maps, the receiver and the
    struct the destination points at. *)
Record XSt := mkXSt {
  xmem : Mem;
  xrows : Rows;
  xdest : list gvalue;
}.

Definition liftXMem {A} (f : Mem → Res A * Mem) : M XSt A :=
  λ s, let (r, m) := f (xmem s) in (r, mkXSt m (xrows s) (xdest s)).

Definition set_xrows (r : Rows) (s : XSt) : XSt :=
  mkXSt (xmem s) r (xdest s).

(** The loop over the columns of [Rows.StructScan], writing [r.fields]. *)
Fixpoint Rows_resolve_loop (fm : gmap string nat) (columns : list string)
    (i : nat) (fields : list nat) : list nat * option error :=
  match columns with
  | [] => (fields, None)
  | name :: rest =>
      match fm !! name with
      | None =>
          (fields,
           Some (errors_New ("Could not find name " ++ name ++ " in interface.")))
      | Some num => Rows_resolve_loop fm rest (S i) (<[i := num]> fields)
      end
  end.

Definition Rows_StructScan (dest : iface) : M XSt unit :=
  let v := dest in
  if decide (ValueKind v ≠ Ptr) then throw must_pass_pointer else
  let base := Indirect v in
  st <- gets (λ s, started (xrows s));;
  (if st : bool then ret tt else
     bt <- liftR (Value_Type base);;
     fm <- liftXMem (getFieldmap bt);;
     columns <- gets (λ s, Rows_Columns (Rows_sql (xrows s)));;
     columns <- liftR columns;;
     modify (λ s, set_xrows
                    (mkRows (Rows_sql (xrows s)) (started (xrows s))
                            (replicate (length columns) 0)
                            (replicate (length columns) None)) s);;;
     fmv <- gets (λ s, fm_deref fm (xmem s));;
     r <- gets (λ s, Rows_resolve_loop fmv columns 0 (fields (xrows s)));;
     modify (λ s, set_xrows
                    (mkRows (Rows_sql (xrows s)) (started (xrows s))
                            (fst r) (values (xrows s))) s);;;
     match snd r with
     | Some e => throw e
     | None =>
         modify (λ s, set_xrows
                        (mkRows (Rows_sql (xrows s)) true
                                (fields (xrows s)) (values (xrows s))) s)
     end);;;
  r <- gets xrows;;
  vals <- liftR (setValues (fields r) base (values r));;
  modify (set_xrows (mkRows (Rows_sql r) (started r) (fields r) vals));;;
  (* r.Scan(r.values...): the error it returns is dropped *)
  modify (λ s, mkXSt (xmem s) (xrows s)
                 (snd (Rows_Scan (Rows_sql (xrows s)) (values (xrows s))
                         (xdest s))));;;
  ret tt.

(** ** What the properties are stated with *)

Local Close Scope string_scope.

(** The key of a field, in the words of the specification: the mapping-name
    annotation when there is one, else the declared name in lower case. *)
Definition resolvedName (f : StructField) : string :=
  if decide (Tag_db f = ""%string) then strings_ToLower (Name f) else Tag_db f.

(** The descriptor of a list of fields, in the words of the specification:
    every field once, in declaration order, its resolved name mapped to its
    position; [i] is the position of the first field of [fs]. *)
Fixpoint descriptor_from (i : nat) (fs : list StructField)
    (fm : gmap string nat) : gmap string nat :=
  match fs with
  | [] => fm
  | f :: fs' => descriptor_from (S i) fs' (<[resolvedName f := i]> fm)
  end.

Definition descriptor (fs : list StructField) : gmap string nat :=
  descriptor_from 0 fs ∅.

(** The cache is consistent: each entry is for a struct type and points at
    the descriptor of its fields. *)
Definition cache_ok (m : Mem) : Prop :=
  ∀ t l, fieldmapCache m !! t = Some l →
    ∃ fs, Fields t = Some fs ∧ fmheap m !! l = Some (descriptor fs).

(** The pointers to the fields at the given positions. *)
Definition ptrsOf (fs : list StructField) (fields : list nat)
  : list (option fieldptr) :=
  map (λ p, (λ f, mkfieldptr p (Type_ f)) <$> fs !! p) fields.

(** Every cell of the row converts to the type of the field it goes to. *)
Definition cells_ok (fs : list StructField) (fields : list nat)
    (row : list dvalue) : Prop :=
  Forall2 (λ p sv, ∃ f, fs !! p = Some f
                        ∧ is_Some (convertAssign (Type_ f) sv)) fields row.


(** The destination is a non-nil pointer to a slice whose elements are
    structs with fields [fs], or pointers to such structs ([isPtr]). *)
Definition slice_of_structs (dest : iface) (isPtr : bool) (base : rtype)
    (fs : list StructField) : Prop :=
  ∃ vt sl selem,
    dest = Dyn vt false ∧ Kind_of vt = Ptr ∧ Elem vt = Ok sl
    ∧ Kind_of sl = Slice ∧ Elem sl = Ok selem
    ∧ isPtr = bool_decide (Kind_of selem = Ptr)
    ∧ BaseStructType selem = Ok base ∧ Fields base = Some fs.

(** The destination is a non-nil pointer to a struct with fields [fs]. *)
Definition pointer_to_struct (dest : iface) (base : rtype)
    (fs : list StructField) : Prop :=
  ∃ vt, dest = Dyn vt false ∧ Kind_of vt = Ptr ∧ Elem vt = Ok base
        ∧ Fields base = Some fs.


(** [m] keeps [P]: from a state with [P] it ends in a state with [P],
    whatever it returns. *)
Definition keeps {S A} (P : S → Prop) (m : M S A) : Prop :=
  ∀ s, P s → P (snd (m s)).

Definition has_cursor (s : St) : Prop := is_Some (cursor s).

Definition must_be_struct : error :=
  errors_New "Destination must be a struct type.".

(** The element type has no struct behind it: it is neither a struct nor a
    pointer, or it is a pointer to such a type. *)
Definition no_struct_behind (t : rtype) : Prop :=
  (Kind_of t ≠ Ptr ∧ Kind_of t ≠ Struct)
  ∨ (Kind_of t = Ptr
     ∧ ∃ e, Elem t = Ok e ∧ Kind_of e ≠ Ptr ∧ Kind_of e ≠ Struct).

Definition not_out_of_fuel {A} (r : Res A) : Prop :=
  ∀ p, r = Panic p → p ≠ out_of_fuel.

(** The destination is checked before the query is executed: the
    computation fails and leaves the log of queries and the cursor as they
    were. *)
Definition fails_before_query (run : M St unit) (s : St) : Prop :=
  ∃ e s', run s = (Err e, s') ∧ queries s' = queries s ∧ cursor s' = cursor s.

(** ** DB: Query, Queryx and QueryRowx

    [sql.DB.Query] is given by what it returns: a [*sql.Rows], nil or not,
    and an error, nil or not.  [Tx] and [qStmt] wrap their query method with
    the same code. *)
Record sql_DB := mksql_DB {
  DB_Query : string → list dvalue → option sql_Rows * option error;
}.

(** [r, err := db.DB.Query(query, args...); return &Rows{Rows: *r}, err]. *)
Definition DB_Queryx (db : sql_DB) (query : string) (args : list dvalue)
  : Res (Rows * option error) :=
  let (r, err) := DB_Query db query args in
  match r with
  | None => Panic "nil pointer dereference"%string
  | Some rs => Ok (mkRows rs false [] [], err)
  end.

(** [r, err := db.DB.Query(query, args...); return &Row{rows: *r, err: err}]. *)
Definition DB_QueryRowx (db : sql_DB) (query : string) (args : list dvalue)
  : Res Row :=
  let (r, err) := DB_Query db query args in
  match r with
  | None => Panic "nil pointer dereference"%string
  | Some rs => Ok (mkRow rs err)
  end.

(** A [*DB] as a [Queryer].  [Query] is the method of the embedded
    [sql.DB]; [Select] returns its error when there is one and
    dereferences its rows otherwise. *)
Definition DB_Queryer (db : sql_DB) : Queryer :=
  mkQueryer
    (λ query args,
       match DB_Query db query args with
       | (_, Some e) => Err e
       | (Some rs, None) => Ok rs
       | (None, None) => Panic "nil pointer dereference"%string
       end)
    (DB_QueryRowx db).


(** The error [BaseSliceType] returns for a type that is neither a slice
    nor a pointer. *)
Definition must_be_slice : error := errors_New "Destination must be a slice.".


(** The destination is a pointer, nil or not, to a container, a slice or
    not, whose elements are structs with fields [fs] or pointers to such
    structs: what [StructScan] takes without complaint up to its loop. *)
Definition container_of_structs (dest : iface) (direct : option rtype)
    (isPtr : bool) (base : rtype) (fs : list StructField) : Prop :=
  ∃ vt nilptr sl selem,
    dest = Dyn vt nilptr ∧ Kind_of vt = Ptr ∧ Elem vt = Ok sl
    ∧ direct = (if nilptr then None else Some sl)
    ∧ Elem sl = Ok selem
    ∧ isPtr = bool_decide (Kind_of selem = Ptr)
    ∧ BaseStructType selem = Ok base ∧ Fields base = Some fs.

(** [direct] is a slice that can be appended to. *)
Definition appendable (direct : option rtype) : Prop :=
  ∃ sl, direct = Some sl ∧ Kind_of sl = Slice.

(** [r] is not the error [e0]. *)
Definition never_fails_with {A} (e0 : error) (r : Res A) : Prop :=
  ∀ e, r = Err e → e ≠ e0.

End WithDriver.

(** * Concurrent callers of getFieldmap

    [getFieldmap] takes no lock.  Its accesses to the shared
    [fieldmapCache] are the lookup at its start and the store at its end;
    between the two it works on a map no other goroutine can reach yet.
    Goroutines calling it are modelled by interleaving these two steps;
    every access to the cache is recorded with the goroutine that made it. *)

Inductive access := Read | Write.

Global Instance access_eq_dec : EqDecision access.
Proof. solve_decision. Defined.

(** A goroutine in [getFieldmap]: about to look the type up, holding the
    map it built for type [t] and about to store it, or returned. *)
Inductive goroutine :=
| Calling
| Built (t : rtype) (fm : nat)
| Returned (r : Res nat).

(** [getFieldmap] from its start to the end of its loop. *)
Definition getFieldmap_begin (t : rtype) (m : Mem) : goroutine * Mem :=
  match BaseStructType t with
  | Err e => (Returned (Err e), m)
  | Panic p => (Returned (Panic p), m)
  | Ok t =>
      match fieldmapCache m !! t with
      | Some fm => (Returned (Ok fm), m)
      | None =>
          let fm := length (fmheap m) in
          let m := mkMem (fmheap m ++ [∅]) (fieldmapCache m) in
          match NumField t with
          | Err e => (Returned (Err e), m)
          | Panic p => (Returned (Panic p), m)
          | Ok n =>
              match getFieldmap_loop t fm n 0 m with
              | (Ok _, m) => (Built t fm, m)
              | (Err e, m) => (Returned (Err e), m)
              | (Panic p, m) => (Returned (Panic p), m)
              end
          end
      end
  end.

(** [fieldmapCache[t] = fm; return fm, nil]. *)
Definition getFieldmap_end (t : rtype) (fm : nat) (m : Mem) : goroutine * Mem :=
  (Returned (Ok fm), mkMem (fmheap m) (<[t := fm]> (fieldmapCache m))).

(** The shared memory, the goroutines and the accesses to the cache made so
    far, each with the index of its goroutine. *)
Record system := mkSystem {
  shared : Mem;
  goroutines : list goroutine;
  trace : list (nat * access);
}.

(** Goroutine [i] takes its next step, if it has one. *)
Definition step (t : rtype) (i : nat) (sys : system) : system :=
  match goroutines sys !! i with
  | Some Calling =>
      let (g, m) := getFieldmap_begin t (shared sys) in
      mkSystem m (<[i := g]> (goroutines sys))
        (match BaseStructType t with
         | Ok _ => trace sys ++ [(i, Read)]
         | _ => trace sys
         end)
  | Some (Built b fm) =>
      let (g, m) := getFieldmap_end b fm (shared sys) in
      mkSystem m (<[i := g]> (goroutines sys)) (trace sys ++ [(i, Write)])
  | _ => sys
  end.

(** A schedule is the list of the goroutines that step, in order. *)
Definition run (t : rtype) (sched : list nat) (sys : system) : system :=
  foldl (λ sys i, step t i sys) sys sched.

Definition start (m : Mem) (n : nat) : system :=
  mkSystem m (replicate n Calling) [].

Definition returned (g : goroutine) : bool :=
  match g with Returned _ => true | _ => false end.

Definition all_returned (sys : system) : bool :=
  forallb returned (goroutines sys).

(** Nothing in [getFieldmap] orders the accesses of one goroutine with
    those of another, so two accesses to the cache by different goroutines
    race as soon as one of them is a write. *)
Definition conflict (x y : nat * access) : bool :=
  bool_decide (x.1 ≠ y.1) && (bool_decide (x.2 = Write) || bool_decide (y.2 = Write)).

Definition race_free (tr : list (nat * access)) : bool :=
  forallb (λ x, forallb (λ y, negb (conflict x y)) tr) tr.

(** All goroutines returned a map with the entries of [fm]. *)
Definition all_observe (fm : gmap string nat) (sys : system) : Prop :=
  Forall (λ g, ∃ l, g = Returned (Ok l)
                    ∧ fmheap (shared sys) !! l = Some fm) (goroutines sys).

(** The cache holds an entry for the type, a map with the entries of
    [fm]. *)
Definition cache_holds (b : rtype) (fm : gmap string nat) (sys : system)
  : Prop :=
  ∃ l, fieldmapCache (shared sys) !! b = Some l
       ∧ fmheap (shared sys) !! l = Some fm.

(** What holds of the system at every point of every schedule. *)
Record invariant (b : rtype) (fs : list StructField) (sys : system)
  : Prop := mkInvariant {
  inv_cache : cache_ok (shared sys);
  inv_built : ∀ i b' fm,
    goroutines sys !! i = Some (Built b' fm) →
    b' = b ∧ fmheap (shared sys) !! fm = Some (descriptor fs)
    ∧ (i, Read) ∈ trace sys;
  inv_returned : ∀ i r,
    goroutines sys !! i = Some (Returned r) →
    (∃ l, r = Ok l ∧ fmheap (shared sys) !! l = Some (descriptor fs))
    ∧ (i, Read) ∈ trace sys
    ∧ is_Some (fieldmapCache (shared sys) !! b);
  inv_first : trace sys = [] → fieldmapCache (shared sys) !! b = None;
  inv_writer : trace sys ≠ [] →
    ∃ j, (∃ fm, goroutines sys !! j = Some (Built b fm))
         ∨ (j, Write) ∈ trace sys;
}.

(** C9 as stated: when all goroutines have returned, the cache holds one
    entry for the type, all of them observe maps with the same entries, and
    no two accesses to the cache race. *)
Definition concurrent_claim (b : rtype) (fs : list StructField)
    (sys : system) : Prop :=
  all_returned sys = true →
  cache_holds b (descriptor fs) sys
  ∧ all_observe (descriptor fs) sys
  ∧ race_free (trace sys) = true.

(** ** The inputs of the examples *)

Section Samples.
#[local] Existing Instance sampleDriver.

Definition User : rtype :=
  TNamed "User"
    (TStruct [mkStructField "ID" "id" (TBasic Int);
              mkStructField "Name" "" (TBasic String)]).

Definition User_fields : list StructField :=
  [mkStructField "ID" "id" (TBasic Int);
   mkStructField "Name" "" (TBasic String)].

(** A cursor over the columns [name], [id] with two rows. *)
Definition people : sql_Rows :=
  mksql_Rows ["name"; "id"]
    [[SStr "Ann"; SInt 7]; [SStr "Bob"; SInt 8]] None false.

(** A cursor with a column [email] that [User] has no field for. *)
Definition with_email : sql_Rows :=
  mksql_Rows ["id"; "email"] [[SInt 7; SStr "ann@example.org"]] None false.


Definition no_rows : sql_Rows := mksql_Rows ["name"; "id"] [] None false.

(** A queryer that answers every query with the given cursor. *)
Definition answering (rs : sql_Rows) : Queryer :=
  mkQueryer (λ _ _, Ok rs) (λ _ _, Ok (mkRow rs None)).

Definition fresh : St := mkSt emptyMem [] None [] [SInt 0; SStr ""].

(** A struct with two fields that resolve to the same name. *)
Definition Legacy_fields : list StructField :=
  [mkStructField "OldID" "id" (TBasic Int);
   mkStructField "ID" "" (TBasic Int)].

Definition Legacy : rtype := TNamed "Legacy" (TStruct Legacy_fields).

(** A struct without tags. *)
Definition Plain_fields : list StructField :=
  [mkStructField "Name" "" (TBasic String);
   mkStructField "Age" "" (TBasic Int)].

Definition Plain : rtype := TNamed "Plain" (TStruct Plain_fields).









(** A closed cursor. *)
Definition closed_cursor : sql_Rows :=
  mksql_Rows ["name"; "id"] [] None true.

(** A queryer whose queries fail with the given error. *)
Definition failing (e : error) : Queryer :=
  mkQueryer (λ _ _, Err e) (λ _ _, Ok (mkRow no_rows (Some e))).

(** A database whose queries fail with the given error and give no rows. *)
Definition failing_DB (e : error) : sql_DB :=
  mksql_DB (λ _ _, (None, Some e)).

Definition connection_lost : error := driver_error "connection lost".

(** The receiver of [Rows.StructScan] before its first call on a cursor. *)
Definition unstarted (rs : sql_Rows) : Rows := mkRows rs false [] [].


(** [Rows.StructScan] on a receiver and a struct, with nothing cached. *)
Definition scanning (r : Rows) (d : list sample_value) : XSt :=
  mkXSt emptyMem r d.

End Samples.

(** * Properties *)

Section Properties.
Context `{D : Driver}.
Local Close Scope string_scope.

(** ** The field map of a struct type *)

Lemma fieldName_resolvedName f : fieldName f = resolvedName f.
Proof.
  unfold fieldName, resolvedName.
  destruct (decide (Tag_db f = ""%string)) as [E|E].
  - rewrite decide_False; [done | by intros []].
  - by rewrite decide_True.
Qed.

Lemma cache_ok_empty : cache_ok emptyMem.
Proof. intros t l H. simpl in H. by rewrite lookup_empty in H. Qed.

Lemma getFieldmap_loop_spec t fs l :
  Fields t = Some fs →
  ∀ n i m,
    length (drop i fs) = n →
    getFieldmap_loop t l n i m
    = (Ok tt, mkMem (alter (descriptor_from i (drop i fs)) l (fmheap m))
                    (fieldmapCache m)).
Proof.
  intros Hfs n. induction n as [|n IH]; intros i m Hlen.
  - apply nil_length_inv in Hlen. rewrite Hlen. simpl.
    destruct m as [h c]. simpl. f_equal. f_equal.
    symmetry. apply list_alter_id. done.
  - destruct (drop i fs) as [|f rest] eqn:Hd; [done|].
    assert (fs !! i = Some f) as Hi.
    { rewrite <- (Nat.add_0_r i), <- lookup_drop, Hd. done. }
    assert (drop (S i) fs = rest) as Hd'.
    { pose proof (drop_S _ _ _ Hi) as E. rewrite Hd in E. congruence. }
    simpl. unfold Field. rewrite Hfs, Hi.
    rewrite IH by (rewrite Hd'; simpl in Hlen; lia).
    rewrite Hd'. unfold fm_store. simpl. f_equal. f_equal.
    rewrite list_alter_alter_eq. apply list_alter_ext; [|done].
    intros fm _. simpl. by rewrite fieldName_resolvedName.
Qed.

Lemma getFieldmap_hit t b l m :
  BaseStructType t = Ok b →
  fieldmapCache m !! b = Some l →
  getFieldmap t m = (Ok l, m).
Proof. intros Hb Hc. unfold getFieldmap. by rewrite Hb, Hc. Qed.

Lemma getFieldmap_miss t b fs m :
  BaseStructType t = Ok b →
  Fields b = Some fs →
  fieldmapCache m !! b = None →
  getFieldmap t m
  = (Ok (length (fmheap m)),
     mkMem (fmheap m ++ [descriptor fs])
           (<[b := length (fmheap m)]> (fieldmapCache m))).
Proof.
  intros Hb Hfs Hc. unfold getFieldmap, NumField. rewrite Hb, Hc, Hfs.
  rewrite (getFieldmap_loop_spec b fs _ Hfs) by done.
  simpl. rewrite drop_0.
  pose proof (alter_app_r (descriptor_from 0 fs) (fmheap m) [∅] 0) as E.
  rewrite Nat.add_0_r in E. by rewrite E.
Qed.

Lemma cache_ok_miss b fs m :
  cache_ok m →
  Fields b = Some fs →
  cache_ok (mkMem (fmheap m ++ [descriptor fs])
                  (<[b := length (fmheap m)]> (fieldmapCache m))).
Proof.
  intros Hok Hfs t l. simpl. rewrite lookup_insert.
  destruct (decide (b = t)) as [->|Hne]; simpl.
  - intros [= <-]. exists fs. split; [done|].
    by rewrite lookup_app_r, Nat.sub_diag.
  - intros Hl. destruct (Hok t l Hl) as (fs' & Hfs' & Hh).
    exists fs'. split; [done|].
    by rewrite lookup_app_l by (by eapply lookup_lt_Some).
Qed.

(** On a consistent cache [getFieldmap] returns, for a struct type or a
    pointer to one, the address of the descriptor of its fields, and leaves
    the cache consistent and holding that address. *)
Lemma getFieldmap_ok t b fs m :
  cache_ok m →
  BaseStructType t = Ok b →
  Fields b = Some fs →
  ∃ l m', getFieldmap t m = (Ok l, m')
          ∧ cache_ok m'
          ∧ fm_deref l m' = descriptor fs
          ∧ fieldmapCache m' !! b = Some l.
Proof.
  intros Hok Hb Hfs.
  destruct (fieldmapCache m !! b) as [l|] eqn:Hc.
  - exists l, m. rewrite (getFieldmap_hit _ _ _ _ Hb Hc).
    destruct (Hok b l Hc) as (fs' & Hfs' & Hh).
    assert (fs' = fs) as -> by congruence.
    unfold fm_deref. by rewrite Hh.
  - eexists _, _. rewrite (getFieldmap_miss _ _ _ _ Hb Hfs Hc).
    split; [done|]. split; [by apply cache_ok_miss|].
    split.
    + unfold fm_deref. simpl. by rewrite lookup_app_r, Nat.sub_diag.
    + simpl. by rewrite lookup_insert_eq.
Qed.

(** What the descriptor holds under a key: the position of the last field
    that resolves to it. *)
Lemma descriptor_from_lookup fs : ∀ i fm k p,
  descriptor_from i fs fm !! k = Some p ↔
    (∃ j f, fs !! j = Some f ∧ resolvedName f = k ∧ p = i + j
            ∧ ∀ j' f', j < j' → fs !! j' = Some f' → resolvedName f' ≠ k)
    ∨ (fm !! k = Some p ∧ ∀ j f, fs !! j = Some f → resolvedName f ≠ k).
Proof.
  induction fs as [|f0 fs IH]; intros i fm k p; simpl.
  - split.
    + intros H. right. split; [done|]. intros j f Hj. by destruct j.
    + intros [(j & f & Hj & _)|[H _]]; [by destruct j | done].
  - rewrite IH. split.
    + intros [(j & f & Hj & Hk & -> & Hlast)|[Hfm Hnone]].
      * left. exists (S j), f. repeat split; [done|done|lia|].
        intros [|j'] f' Hlt Hj'; [lia|]. apply (Hlast j' f'); [lia|done].
      * rewrite lookup_insert in Hfm.
        destruct (decide (resolvedName f0 = k)) as [E|E]; simpl in Hfm.
        -- left. exists 0, f0. injection Hfm as <-.
           repeat split; [done|lia|].
           intros [|j'] f' Hlt Hj'; [lia|]. by apply (Hnone j' f').
        -- right. split; [done|]. intros [|j] f Hj.
           ++ by injection Hj as <-.
           ++ by apply (Hnone j f).
    + intros [(j & f & Hj & Hk & -> & Hlast)|[Hfm Hnone]].
      * destruct j as [|j].
        -- injection Hj as <-. right. split.
           ++ rewrite Hk, lookup_insert_eq. f_equal. lia.
           ++ intros j f Hj. apply (Hlast (S j) f); [lia|done].
        -- left. exists j, f. repeat split; [done|done|lia|].
           intros j' f' Hlt Hj'. apply (Hlast (S j') f'); [lia|done].
      * right. split.
        -- rewrite lookup_insert_ne; [done|]. by apply (Hnone 0 f0).
        -- intros j f Hj. by apply (Hnone (S j) f).
Qed.

Lemma descriptor_lookup fs k p :
  descriptor fs !! k = Some p ↔
    ∃ f, fs !! p = Some f ∧ resolvedName f = k
         ∧ ∀ j' f', p < j' → fs !! j' = Some f' → resolvedName f' ≠ k.
Proof.
  unfold descriptor. rewrite descriptor_from_lookup. split.
  - intros [(j & f & Hj & Hk & -> & Hlast)|[H _]].
    + exists f. simpl. done.
    + by rewrite lookup_empty in H.
  - intros (f & Hp & Hk & Hlast). left. exists p, f. done.
Qed.

Lemma descriptor_lookup_lt fs k p :
  descriptor fs !! k = Some p → p < length fs.
Proof.
  rewrite descriptor_lookup. intros (f & Hp & _).
  by eapply lookup_lt_Some.
Qed.

Lemma descriptor_from_is_Some fs : ∀ i fm k,
  (∃ f, f ∈ fs ∧ resolvedName f = k) ∨ is_Some (fm !! k) →
  is_Some (descriptor_from i fs fm !! k).
Proof.
  induction fs as [|f0 fs IH]; intros i fm k H; simpl.
  - destruct H as [(f & Hf & _)|H]; [by apply elem_of_nil in Hf | done].
  - apply IH. destruct H as [(f & Hf & Hk)|H].
    + apply elem_of_cons in Hf as [->|Hf].
      * right. by rewrite Hk, lookup_insert_eq.
      * left. eauto.
    + right. rewrite lookup_insert. by case_decide.
Qed.

Lemma descriptor_lookup_None fs k :
  descriptor fs !! k = None ↔ ∀ f, f ∈ fs → resolvedName f ≠ k.
Proof.
  split.
  - intros Hn f Hf Hk.
    assert (is_Some (descriptor fs !! k)) as [p Hp]; [|congruence].
    apply descriptor_from_is_Some. left. eauto.
  - intros Hn. destruct (descriptor fs !! k) as [p|] eqn:E; [|done].
    apply descriptor_lookup in E as (f & Hp & Hk & _).
    exfalso. apply (Hn f); [|done]. by eapply list_elem_of_lookup_2.
Qed.

Lemma Fields_Kind t fs : Fields t = Some fs → Kind_of t = Struct.
Proof. induction t; simpl; try done. Qed.

Lemma BaseStructType_struct t fs :
  Fields t = Some fs → BaseStructType t = Ok t.
Proof.
  intros H. unfold BaseStructType. by rewrite (Fields_Kind t fs).
Qed.

Lemma descriptor_lookup_NoDup fs i f :
  NoDup (resolvedName <$> fs) →
  fs !! i = Some f →
  descriptor fs !! resolvedName f = Some i.
Proof.
  intros Hnd Hi. apply descriptor_lookup. exists f. repeat split; [done|].
  intros j' f' Hlt Hj' E.
  assert (i = j'); [|lia].
  eapply NoDup_lookup; [done| |].
  - by rewrite list_lookup_fmap, Hi.
  - rewrite list_lookup_fmap, Hj'. simpl. by rewrite E.
Qed.

(** [getFieldmap] keeps the cache consistent, whatever it returns. *)
Lemma getFieldmap_cache_ok t m :
  cache_ok m → cache_ok (snd (getFieldmap t m)).
Proof.
  intros Hok. unfold getFieldmap.
  destruct (BaseStructType t) as [b|e|p] eqn:Hb; [|done|done].
  destruct (fieldmapCache m !! b) as [l|] eqn:Hc; [done|].
  unfold NumField. destruct (Fields b) as [fs|] eqn:Hfs.
  - rewrite (getFieldmap_loop_spec b fs _ Hfs) by done.
    simpl. rewrite drop_0.
    pose proof (alter_app_r (descriptor_from 0 fs) (fmheap m) [∅] 0) as E.
    rewrite Nat.add_0_r in E. rewrite E. by apply cache_ok_miss.
  - simpl. intros t' l' Hl'. simpl in Hl'.
    destruct (Hok t' l' Hl') as (fs' & Hfs' & Hh). exists fs'.
    split; [done|]. simpl.
    by rewrite lookup_app_l by (by eapply lookup_lt_Some).
Qed.

(** C6: for a struct type (or a pointer to one) the descriptor builder
    files every field under its mapping-name annotation when that is not
    empty and under its declared name in lower case otherwise, visiting the
    fields once each in declaration order and mapping the resolved name to
    the position of the field: the map [getFieldmap] returns is the
    descriptor of the fields; a key is mapped to a position exactly when the
    field there resolves to the key and no later field does; and when the
    resolved names are distinct every field is found under its name at its
    own position. *)
Theorem getFieldmap_resolves_fields t b fs m :
  cache_ok m →
  BaseStructType t = Ok b →
  Fields b = Some fs →
  ∃ l m',
    getFieldmap t m = (Ok l, m')
    ∧ fm_deref l m' = descriptor fs
    ∧ (∀ f, fieldName f
            = if decide (Tag_db f = ""%string) then strings_ToLower (Name f)
              else Tag_db f)
    ∧ (∀ k p, fm_deref l m' !! k = Some p ↔
         ∃ f, fs !! p = Some f ∧ fieldName f = k
              ∧ ∀ j f', p < j → fs !! j = Some f' → fieldName f' ≠ k)
    ∧ (NoDup (fieldName <$> fs) →
       ∀ i f, fs !! i = Some f → fm_deref l m' !! fieldName f = Some i).
Proof.
  intros Hok Hb Hfs.
  destruct (getFieldmap_ok t b fs m Hok Hb Hfs) as (l & m' & Hg & _ & Hd & _).
  exists l, m'. split; [done|]. split; [done|]. split.
  { intros f. apply fieldName_resolvedName. }
  rewrite Hd. split.
  - intros k p. rewrite descriptor_lookup.
    split; intros (f & Hp & Hk & Hlast); exists f.
    + rewrite fieldName_resolvedName. repeat split; [done|done|].
      intros j f' ??. rewrite (fieldName_resolvedName f'). eauto.
    + rewrite <- (fieldName_resolvedName f). repeat split; [done|done|].
      intros j f' ??. rewrite <- (fieldName_resolvedName f'). eauto.
  - intros Hnd i f Hi. rewrite fieldName_resolvedName.
    apply descriptor_lookup_NoDup; [|done].
    erewrite list_fmap_ext; [exact Hnd|].
    intros ???. by rewrite fieldName_resolvedName.
Qed.


(** ** Columns to positions *)

Lemma getFields_loop_ok fm : ∀ columns ps i fields,
  Forall2 (λ c p, fm !! c = Some p) columns ps →
  length fields = i + length columns →
  getFields_loop fm columns i fields = (take i fields ++ ps, None).
Proof.
  intros columns.
  induction columns as [|c columns IH]; intros ps i fields HF Hlen.
  - apply Forall2_nil_inv_l in HF as ->. simpl in *.
    rewrite app_nil_r, take_ge by lia. done.
  - apply Forall2_cons_inv_l in HF as (p & ps' & Hc & HF & ->).
    simpl in *. rewrite Hc.
    rewrite (IH ps' (S i)); [|done|rewrite length_insert; lia].
    f_equal.
    assert (<[i:=p]> fields !! i = Some p) as E.
    { apply list_lookup_insert_eq. lia. }
    rewrite (take_S_r _ _ _ E).
    rewrite take_insert_ge by lia. by rewrite <- app_assoc.
Qed.

(** The positions [getFields] returns when the field map knows every
    column: position [i] is what the map holds for column [i]. *)
Lemma getFields_ok fm columns ps :
  Forall2 (λ c p, fm !! c = Some p) columns ps →
  getFields fm columns = (ps, None).
Proof.
  intros HF. unfold getFields.
  rewrite (getFields_loop_ok fm columns ps); [done|done|].
  by rewrite length_replicate.
Qed.

Lemma getFields_loop_unmapped fm pre c post : ∀ i fields,
  Forall (λ c', is_Some (fm !! c')) pre →
  fm !! c = None →
  ∃ fields',
    getFields_loop fm (pre ++ c :: post) i fields
    = (fields',
       Some (errors_New ("Could not find name " ++ c ++ " in interface")%string)).
Proof.
  induction pre as [|c0 pre IH]; intros i fields Hpre Hc; simpl.
  - rewrite Hc. eauto.
  - apply Forall_cons_1 in Hpre as [[p Hp] Hpre].
    rewrite Hp. by apply IH.
Qed.

(** The error of [getFields] names the first column the map does not
    know. *)
Lemma getFields_unmapped fm pre c post :
  Forall (λ c', is_Some (fm !! c')) pre →
  fm !! c = None →
  snd (getFields fm (pre ++ c :: post))
  = Some (errors_New ("Could not find name " ++ c ++ " in interface")%string).
Proof.
  intros Hpre Hc. unfold getFields.
  destruct (getFields_loop_unmapped fm pre c post 0
              (replicate (length (pre ++ c :: post)) 0) Hpre Hc) as [fs' ->].
  done.
Qed.

(** Either every column is known or there is a first unknown one. *)
Lemma columns_split (fm : gmap string nat) (columns : list string) :
  (∃ ps, Forall2 (λ c p, fm !! c = Some p) columns ps)
  ∨ (∃ pre c post, columns = pre ++ c :: post
                   ∧ Forall (λ c', is_Some (fm !! c')) pre ∧ fm !! c = None).
Proof.
  induction columns as [|c columns IH].
  - left. exists []. constructor.
  - destruct (fm !! c) as [p|] eqn:Hc.
    + destruct IH as [[ps HF]|(pre & c' & post & -> & Hpre & Hc')].
      * left. exists (p :: ps). by constructor.
      * right. exists (c :: pre), c', post. split; [done|].
        split; [|done]. constructor; [by eexists | done].
    + right. exists [], c, columns. by repeat split.
Qed.

(** ** Field pointers *)

Lemma setValues_loop_ok base fs : ∀ fields i values,
  Fields base = Some fs →
  Forall (λ p, p < length fs) fields →
  length values = i + length fields →
  setValues_loop (Some base) fields i values
  = Ok (take i values ++ ptrsOf fs fields).
Proof.
  intros fields. induction fields as [|p fields IH]; intros i values Hfs HF Hlen.
  - simpl in *. rewrite app_nil_r, take_ge by lia. done.
  - apply Forall_cons_1 in HF as [Hp HF]. simpl in *.
    destruct (lookup_lt_is_Some_2 fs p Hp) as [f Hf].
    unfold Field. rewrite Hfs, Hf.
    rewrite decide_True by lia.
    rewrite IH; [|done|done|rewrite length_insert; lia].
    f_equal.
    assert (<[i:=Some (mkfieldptr p (Type_ f))]> values !! i
            = Some (Some (mkfieldptr p (Type_ f)))) as E.
    { apply list_lookup_insert_eq. lia. }
    rewrite (take_S_r _ _ _ E).
    rewrite take_insert_ge by lia. by rewrite <- app_assoc.
Qed.

Lemma setValues_ok base fs fields values :
  Fields base = Some fs →
  Forall (λ p, p < length fs) fields →
  length values = length fields →
  setValues fields (Some base) values = Ok (ptrsOf fs fields).
Proof.
  intros. unfold setValues. by rewrite (setValues_loop_ok base fs).
Qed.

Lemma length_ptrsOf fs fields : length (ptrsOf fs fields) = length fields.
Proof. unfold ptrsOf. by rewrite length_map. Qed.

(** ** Scanning one row *)


Lemma scan_cells_ok fs : ∀ fields row i rec,
  cells_ok fs fields row →
  fst (scan_cells i (ptrsOf fs fields) row rec) = None.
Proof.
  intros fields. induction fields as [|p fields IH]; intros row i rec H.
  - by apply Forall2_nil_inv_l in H as ->.
  - apply Forall2_cons_inv_l in H as (sv & row' & (f & Hf & [g Hg]) & H & ->).
    simpl. rewrite Hf. simpl. rewrite Hg. by apply IH.
Qed.




Lemma cells_ok_length fs fields row :
  cells_ok fs fields row → length fields = length row.
Proof. apply Forall2_length. Qed.

Lemma Rows_Scan_current rs fs fields row rec :
  closed rs = false →
  lastcols rs = Some row →
  length fields = length row →
  Rows_Scan rs (ptrsOf fs fields) rec
  = scan_cells 0 (ptrsOf fs fields) row rec.
Proof.
  intros Hc Hl Hlen. unfold Rows_Scan. rewrite Hc, Hl.
  rewrite decide_False; [done|]. rewrite length_ptrsOf. lia.
Qed.

(** ** The loop of StructScan *)


(** At the end of the rows [Next] closes the cursor and the loop ends. *)
Lemma StructScan_loop_done fuel base isPtr direct fields vals s cols lc :
  cursor s = Some (mksql_Rows cols [] lc false) →
  StructScan_loop (S fuel) base isPtr direct fields vals s
  = (Ok tt, set_cursor (Some (mksql_Rows cols [] lc true)) s).
Proof.
  intros Hcur. simpl. unfold bind, withRows. by rewrite Hcur.
Qed.


(** ** StructScan on a pointer to a slice of structs *)

Lemma slice_of_structs_value S fs :
  Fields S = Some fs →
  slice_of_structs (Dyn (TPtr (TSlice S)) false) false S fs.
Proof.
  intros Hfs. exists (TPtr (TSlice S)), (TSlice S), S.
  repeat split; try done.
  - symmetry. apply bool_decide_eq_false.
    by rewrite (Fields_Kind S fs).
  - by apply (BaseStructType_struct S fs).
Qed.

Lemma slice_of_structs_pointer S fs :
  Fields S = Some fs →
  slice_of_structs (Dyn (TPtr (TSlice (TPtr S))) false) true S fs.
Proof.
  intros Hfs. exists (TPtr (TSlice (TPtr S))), (TSlice (TPtr S)), (TPtr S).
  by repeat split.
Qed.

(** Up to the loop: [StructScan] on such a destination and an open cursor
    asks for the field map and resolves the columns; it fails there when a
    column is unknown and enters the loop otherwise. *)
Lemma StructScan_prelude dest isPtr base fs s rs :
  slice_of_structs dest isPtr base fs →
  cache_ok (mem s) →
  cursor s = Some rs →
  closed rs = false →
  ∃ m' sl,
    cache_ok m' ∧ Kind_of sl = Slice
    ∧ StructScan dest s
      = match getFields (descriptor fs) (columns rs) with
        | (_, Some e) => (Err e, set_mem m' s)
        | (fields, None) =>
            StructScan_loop (S (length (pending rs))) base isPtr (Some sl)
              fields (replicate (length (columns rs)) None) (set_mem m' s)
        end.
Proof.
  intros (vt & sl & selem & -> & Hvt & Hsl & Hksl & Hselem & -> & Hb & Hfs)
    Hok Hcur Hcl.
  destruct (getFieldmap_ok base base fs (mem s) Hok
              (BaseStructType_struct base fs Hfs) Hfs)
    as (l & m' & Hg & Hok' & Hd & _).
  exists m', sl. split; [done|]. split; [done|].
  assert (Hin : Indirect (Dyn vt false) = Some sl).
  { unfold Indirect. rewrite decide_True by done. by rewrite Hsl. }
  unfold StructScan. rewrite Hin. simpl.
  rewrite decide_False by (by intros []).
  unfold bind at 1. unfold liftR at 1.
  unfold bind at 1. unfold liftR at 1. unfold BaseSliceType. rewrite Hvt, Hsl.
  unfold bind at 1. unfold liftR at 1. rewrite Hselem.
  unfold bind at 1. unfold liftR at 1. rewrite Hb.
  unfold bind at 1. unfold liftMem at 1. rewrite Hg.
  unfold bind at 1. unfold withRows at 1. simpl. rewrite Hcur.
  unfold Rows_Columns. rewrite Hcl.
  unfold bind at 1. unfold gets at 1. simpl. rewrite Hd.
  assert (Hs : set_cursor (Some rs) (set_mem m' s) = set_mem m' s).
  { unfold set_cursor, set_mem. simpl. by rewrite <- Hcur. }
  rewrite Hs.
  destruct (getFields (descriptor fs) (columns rs)) as [fields [e|]]; [done|].
  unfold bind at 1. unfold gets at 1. simpl. by rewrite Hcur.
Qed.

Lemma resolved_in_range fs cols ps :
  Forall2 (λ c p, descriptor fs !! c = Some p) cols ps →
  Forall (λ p, p < length fs) ps.
Proof.
  intros H. induction H as [|c p cols ps Hc _ IH]; constructor; [|done].
  by apply (descriptor_lookup_lt fs c).
Qed.




Lemma Select_run q dest query args s rs :
  Query q query args = Ok rs →
  Select q dest query args s
  = (let (r, s') := StructScan dest (set_cursor (Some rs) (log_query query s))
     in (r, closeCursor s')).
Proof.
  intros Hq. unfold Select, bind, modify, liftR, defer. simpl. by rewrite Hq.
Qed.

Lemma Select_query_error q dest query args s e :
  Query q query args = Err e →
  Select q dest query args s = (Err e, log_query query s).
Proof.
  intros Hq. unfold Select, bind, modify, liftR. simpl. by rewrite Hq.
Qed.






(** ** Row.StructScan on a pointer to a struct *)

Lemma pointer_to_struct_TPtr S fs :
  Fields S = Some fs → pointer_to_struct (Dyn (TPtr S) false) S fs.
Proof. intros Hfs. by exists (TPtr S). Qed.

Lemma Indirect_pointer_to_struct dest base fs :
  pointer_to_struct dest base fs → Indirect dest = Some base.
Proof.
  intros (vt & -> & Hvt & Hel & _). unfold Indirect.
  rewrite decide_True by done. by rewrite Hel.
Qed.

(** Up to the scan: [Row.StructScan] asks for the field map and resolves
    the columns; it fails there when a column is unknown and goes on to
    [Row.Scan] with the pointers to the fields otherwise. *)
Lemma Row_StructScan_prelude dest base fs s rs :
  pointer_to_struct dest base fs →
  cache_ok (mem s) →
  cursor s = Some rs →
  closed rs = false →
  ∃ m',
    cache_ok m'
    ∧ Row_StructScan None dest s
      = match getFields (descriptor fs) (columns rs) with
        | (_, Some e) => (Err e, set_mem m' s)
        | (flds, None) =>
            match setValues flds (Some base)
                    (replicate (length (columns rs)) None) with
            | Ok vals => Row_Scan None vals (set_mem m' s)
            | Err e => (Err e, set_mem m' s)
            | Panic p => (Panic p, set_mem m' s)
            end
        end.
Proof.
  intros Hdest Hok Hcur Hcl.
  pose proof (Indirect_pointer_to_struct _ _ _ Hdest) as Hin.
  destruct Hdest as (vt & -> & Hvt & Hel & Hfs).
  destruct (getFieldmap_ok base base fs (mem s) Hok
              (BaseStructType_struct base fs Hfs) Hfs)
    as (l & m' & Hg & Hok' & Hd & _).
  exists m'. split; [done|].
  unfold Row_StructScan. rewrite Hin. simpl.
  rewrite decide_False by (by intros []).
  unfold bind at 1. unfold liftR at 1.
  unfold bind at 1. unfold liftR at 1.
  rewrite (BaseStructType_struct base fs Hfs).
  unfold bind at 1. unfold liftMem at 1. rewrite Hg.
  unfold bind at 1. unfold withRows at 1. simpl. rewrite Hcur.
  unfold Rows_Columns. rewrite Hcl.
  unfold bind at 1. unfold gets at 1. simpl. rewrite Hd.
  assert (Hs : set_cursor (Some rs) (set_mem m' s) = set_mem m' s).
  { unfold set_cursor, set_mem. simpl. by rewrite <- Hcur. }
  rewrite Hs.
  destruct (getFields (descriptor fs) (columns rs)) as [flds [e|]]; [done|].
  unfold bind at 1. unfold liftR at 1.
  by destruct (setValues _ _ _).
Qed.

Lemma Get_run q dest query args s r :
  QueryRowx q query args = Ok r →
  Get q dest query args s
  = Row_StructScan (err r) dest
      (set_cursor (Some (rows r)) (log_query query s)).
Proof.
  intros Hq. unfold Get, bind, modify, liftR. simpl. by rewrite Hq.
Qed.

(** C2: when a column of the result has no entry in the descriptor of the
    destination type, [Select] and [Get] fail with the error that names the
    first such column, before any row is fetched or scanned: the rows of the
    cursor are all still pending, and neither the destination slice nor the
    destination struct has changed. *)
Theorem unmapped_column_fails_before_any_scan q query args fs s :
  cache_ok (mem s) →
  (∀ dest isPtr base rs,
     slice_of_structs dest isPtr base fs →
     Query q query args = Ok rs →
     closed rs = false →
     (∃ c, c ∈ columns rs ∧ descriptor fs !! c = None) →
     ∃ pre c post s',
       columns rs = pre ++ c :: post
       ∧ Forall (λ c', is_Some (descriptor fs !! c')) pre
       ∧ descriptor fs !! c = None
       ∧ Select q dest query args s
         = (Err (errors_New
                   ("Could not find name " ++ c ++ " in interface")%string), s')
       ∧ destSlice s' = destSlice s ∧ destStruct s' = destStruct s
       ∧ (pending <$> cursor s') = Some (pending rs)
       ∧ (lastcols <$> cursor s') = Some (lastcols rs))
  ∧ (∀ dest base r,
     pointer_to_struct dest base fs →
     QueryRowx q query args = Ok r →
     err r = None →
     closed (rows r) = false →
     (∃ c, c ∈ columns (rows r) ∧ descriptor fs !! c = None) →
     ∃ pre c post s',
       columns (rows r) = pre ++ c :: post
       ∧ Forall (λ c', is_Some (descriptor fs !! c')) pre
       ∧ descriptor fs !! c = None
       ∧ Get q dest query args s
         = (Err (errors_New
                   ("Could not find name " ++ c ++ " in interface")%string), s')
       ∧ destSlice s' = destSlice s ∧ destStruct s' = destStruct s
       ∧ (pending <$> cursor s') = Some (pending (rows r))
       ∧ (lastcols <$> cursor s') = Some (lastcols (rows r))).
Proof.
  intros Hok. split.
  - intros dest isPtr base rs Hdest Hq Hcl (c0 & Hc0 & Hn0).
    destruct (columns_split (descriptor fs) (columns rs))
      as [[ps Hres]|(pre & c & post & Hcols & Hpre & Hc)].
    { apply list_elem_of_lookup in Hc0 as [i Hi].
      destruct (Forall2_lookup_l _ _ _ _ _ Hres Hi) as (p & _ & Hp).
      congruence. }
    rewrite (Select_run _ _ _ _ _ _ Hq).
    destruct (StructScan_prelude dest isPtr base fs
                (set_cursor (Some rs) (log_query query s)) rs)
      as (m' & sl & _ & _ & ->); try done.
    pose proof (getFields_unmapped _ pre c post Hpre Hc) as Herr.
    rewrite <- Hcols in Herr.
    destruct (getFields (descriptor fs) (columns rs)) as [flds oe].
    simpl in Herr. subst oe.
    exists pre, c, post. eexists. by repeat split.
  - intros dest base r Hdest Hq Herr0 Hcl (c0 & Hc0 & Hn0).
    destruct (columns_split (descriptor fs) (columns (rows r)))
      as [[ps Hres]|(pre & c & post & Hcols & Hpre & Hc)].
    { apply list_elem_of_lookup in Hc0 as [i Hi].
      destruct (Forall2_lookup_l _ _ _ _ _ Hres Hi) as (p & _ & Hp).
      congruence. }
    rewrite (Get_run _ _ _ _ _ _ Hq), Herr0.
    destruct (Row_StructScan_prelude dest base fs
                (set_cursor (Some (rows r)) (log_query query s)) (rows r))
      as (m' & _ & ->); try done.
    pose proof (getFields_unmapped _ pre c post Hpre Hc) as Herr.
    rewrite <- Hcols in Herr.
    destruct (getFields (descriptor fs) (columns (rows r))) as [flds oe].
    simpl in Herr. subst oe.
    exists pre, c, post. eexists. by repeat split.
Qed.





(** ** Rows.StructScan *)



(** ** The cursor at the exits of Select *)

Lemma keeps_bind {S A B} (P : S → Prop) (m : M S A) (k : A → M S B) :
  keeps P m → (∀ a, keeps P (k a)) → keeps P (bind m k).
Proof.
  intros Hm Hk s HP. unfold bind. specialize (Hm s HP).
  destruct (m s) as [[a|e|p] s']; simpl in *; try done. by apply Hk.
Qed.

Lemma keeps_liftR {S A} (P : S → Prop) (r : Res A) : keeps P (liftR r).
Proof. by intros s HP. Qed.

Lemma keeps_throw {S A} (P : S → Prop) e : keeps P (@throw S A e).
Proof. by intros s HP. Qed.

Lemma keeps_panic {S A} (P : S → Prop) p : keeps P (@panic S A p).
Proof. by intros s HP. Qed.

Lemma keeps_ret {S A} (P : S → Prop) (a : A) : keeps P (@ret S A a).
Proof. by intros s HP. Qed.

Lemma keeps_gets {S A} (P : S → Prop) (f : S → A) : keeps P (gets f).
Proof. by intros s HP. Qed.

Lemma keeps_cursor_withRows {A} (f : sql_Rows → Res A * sql_Rows) :
  keeps has_cursor (withRows f).
Proof.
  intros s [rs Hrs]. unfold withRows. rewrite Hrs.
  destruct (f rs) as [r rs']. simpl. by eexists.
Qed.

Lemma keeps_cursor_liftMem {A} (f : Mem → Res A * Mem) :
  keeps has_cursor (liftMem f).
Proof.
  intros s HP. unfold liftMem. by destruct (f (mem s)).
Qed.

Lemma keeps_cursor_appendDest direct x : keeps has_cursor (appendDest direct x).
Proof.
  intros s HP. unfold appendDest. destruct direct as [t|]; [|done].
  by case_decide.
Qed.

Lemma keeps_cursor_loop base isPtr direct flds : ∀ fuel vals,
  keeps has_cursor (StructScan_loop fuel base isPtr direct flds vals).
Proof.
  induction fuel as [|fuel IH]; intros vals; simpl.
  - apply keeps_panic.
  - apply keeps_bind; [apply keeps_cursor_withRows|].
    intros [|]; [|apply keeps_ret].
    apply keeps_bind; [apply keeps_liftR|]. intros vals'.
    apply keeps_bind; [apply keeps_cursor_withRows|].
    intros [[e|] rec]; [apply keeps_throw|].
    apply keeps_bind; [apply keeps_cursor_appendDest|]. intros _. apply IH.
Qed.

Lemma keeps_cursor_StructScan dest : keeps has_cursor (StructScan dest).
Proof.
  unfold StructScan. case_decide; [apply keeps_throw|].
  apply keeps_bind; [apply keeps_liftR|]. intros vt.
  apply keeps_bind; [apply keeps_liftR|]. intros sl.
  apply keeps_bind; [apply keeps_liftR|]. intros selem.
  apply keeps_bind; [apply keeps_liftR|]. intros base.
  apply keeps_bind; [apply keeps_cursor_liftMem|]. intros fm.
  apply keeps_bind; [apply keeps_cursor_withRows|]. intros cols.
  apply keeps_bind; [apply keeps_gets|]. intros fmv.
  destruct (getFields fmv cols) as [flds [e|]]; [apply keeps_throw|].
  apply keeps_bind; [apply keeps_gets|]. intros fuel.
  apply keeps_cursor_loop.
Qed.

(** X18: [Select] closes the cursor of its query at every exit: when the
    query gave a cursor, [Select] ends with that cursor closed, whatever the
    destination and the state, whether it returns nil, returns an error or
    panics. *)
Lemma Select_closes_cursor q dest query args s rs :
  Query q query args = Ok rs →
  ∃ rs', cursor (snd (Select q dest query args s)) = Some rs'
         ∧ closed rs' = true.
Proof.
  intros Hq. rewrite (Select_run _ _ _ _ _ _ Hq).
  pose proof (keeps_cursor_StructScan dest
                (set_cursor (Some rs) (log_query query s))) as H.
  destruct (StructScan dest _) as [r s']. simpl in *.
  destruct H as [rs' Hrs']; [by eexists|].
  exists (Rows_Close rs'). by rewrite Hrs'.
Qed.

(** ** The cursor at the exits of Get *)

(** When a column is unknown, [Get] returns with the cursor of its query as
    the queryer gave it: still open. *)
Lemma Get_unmapped_leaves_cursor_open q query args dest base fs s r :
  pointer_to_struct dest base fs →
  cache_ok (mem s) →
  QueryRowx q query args = Ok r →
  err r = None →
  closed (rows r) = false →
  ¬ Forall (λ c, is_Some (descriptor fs !! c)) (columns (rows r)) →
  ∃ e, fst (Get q dest query args s) = Err e
       ∧ cursor (snd (Get q dest query args s)) = Some (rows r).
Proof.
  intros Hdest Hok Hq Herr Hcl Hnot.
  rewrite (Get_run _ _ _ _ _ _ Hq), Herr.
  destruct (Row_StructScan_prelude dest base fs
              (set_cursor (Some (rows r)) (log_query query s)) (rows r))
    as (m' & _ & ->); try done.
  destruct (columns_split (descriptor fs) (columns (rows r)))
    as [[ps Hres]|(pre & c & post & Hcols & Hpre & Hc)].
  { exfalso. apply Hnot. clear -Hres.
    induction Hres; constructor; [by eexists | done]. }
  pose proof (getFields_unmapped _ pre c post Hpre Hc) as Hsnd.
  rewrite <- Hcols in Hsnd.
  destruct (getFields (descriptor fs) (columns (rows r))) as [flds oe].
  simpl in Hsnd. subst oe. by eexists.
Qed.

(** ** The check of the destination *)

Lemma BaseStructType_other t :
  Kind_of t ≠ Ptr → Kind_of t ≠ Struct → BaseStructType t = Err must_be_struct.
Proof.
  intros H1 H2. unfold BaseStructType. by destruct (Kind_of t).
Qed.

Lemma BaseStructType_Ptr t e :
  Kind_of t = Ptr → Elem t = Ok e → BaseStructType t = Ok e.
Proof. intros H1 H2. unfold BaseStructType. by rewrite H1. Qed.

(** C5, amended: the destination is checked after the query has been
    executed and its cursor obtained, and before the cursor is read.  For a
    destination that is not a pointer, [Select], once its query has
    succeeded, and [Get] return the must-pass-a-pointer error; for a pointer
    to something whose elements have no struct behind them ([Select]), or
    to something with no struct behind it ([Get]), they return the
    must-be-a-struct error.  In each case the query is in the log, the
    cursor is the one the queryer gave, with every row still pending, closed
    by [Select] and left as it was by [Get], and the destination is
    untouched. *)
Theorem destination_checked_after_query q dest query args s :
  (ValueKind dest ≠ Ptr →
     (∀ rs, Query q query args = Ok rs →
        Select q dest query args s
        = (Err must_pass_pointer,
           set_cursor (Some (Rows_Close rs)) (log_query query s)))
     ∧ (∀ r, QueryRowx q query args = Ok r →
        Get q dest query args s
        = (Err must_pass_pointer,
           set_cursor (Some (rows r)) (log_query query s))))
  ∧ (∀ vt nilptr sl selem rs,
       dest = Dyn vt nilptr → Kind_of vt = Ptr → Elem vt = Ok sl →
       Elem sl = Ok selem → no_struct_behind selem →
       Query q query args = Ok rs →
       Select q dest query args s
       = (Err must_be_struct,
          set_cursor (Some (Rows_Close rs)) (log_query query s)))
  ∧ (∀ vt dt r,
       dest = Dyn vt false → Kind_of vt = Ptr → Elem vt = Ok dt →
       no_struct_behind dt →
       QueryRowx q query args = Ok r →
       Get q dest query args s
       = (Err must_be_struct,
          set_cursor (Some (rows r)) (log_query query s))).
Proof.
  split; [|split].
  - intros Hk. split.
    + intros rs Hq. rewrite (Select_run _ _ _ _ _ _ Hq).
      unfold StructScan. by rewrite decide_True.
    + intros r Hq. rewrite (Get_run _ _ _ _ _ _ Hq).
      unfold Row_StructScan. by rewrite decide_True.
  - intros vt nilptr sl selem rs -> Hvt Hsl Hselem Hno Hq.
    rewrite (Select_run _ _ _ _ _ _ Hq).
    unfold StructScan. simpl. rewrite decide_False by (by intros []).
    unfold bind at 1. unfold liftR at 1.
    unfold bind at 1. unfold liftR at 1. unfold BaseSliceType. rewrite Hvt, Hsl.
    unfold bind at 1. unfold liftR at 1. rewrite Hselem.
    unfold bind at 1. unfold liftR at 1.
    destruct Hno as [[H1 H2]|(H1 & e & He & H2 & H3)].
    + by rewrite (BaseStructType_other _ H1 H2).
    + rewrite (BaseStructType_Ptr _ _ H1 He).
      unfold bind at 1. unfold liftMem at 1. unfold getFieldmap.
      by rewrite (BaseStructType_other _ H2 H3).
  - intros vt dt r -> Hvt Hdt Hno Hq.
    rewrite (Get_run _ _ _ _ _ _ Hq).
    unfold Row_StructScan. simpl. rewrite decide_False by (by intros []).
    assert (Hin : Indirect (Dyn vt false) = Some dt).
    { unfold Indirect. rewrite decide_True by done. by rewrite Hdt. }
    unfold Indirect in Hin. rewrite Hin.
    unfold bind at 1. unfold liftR at 1. simpl.
    unfold bind at 1. unfold liftR at 1.
    destruct Hno as [[H1 H2]|(H1 & e & He & H2 & H3)].
    + by rewrite (BaseStructType_other _ H1 H2).
    + rewrite (BaseStructType_Ptr _ _ H1 He).
      unfold bind at 1. unfold liftMem at 1. unfold getFieldmap.
      by rewrite (BaseStructType_other _ H2 H3).
Qed.

(** ** The fuel of the loop is enough *)

Ltac other_panic :=
  unfold not_out_of_fuel in *; simpl in *;
  first [ done
        | let q := fresh "q" in intros q [= <-]; (done || eauto) ].

Lemma bind_not_out_of_fuel {S A B} (m : M S A) (k : A → M S B) s :
  not_out_of_fuel (fst (m s)) →
  (∀ a s', m s = (Ok a, s') → not_out_of_fuel (fst (k a s'))) →
  not_out_of_fuel (fst (bind m k s)).
Proof.
  intros Hm Hk. unfold bind.
  destruct (m s) as [[a|e|p] s']; [by apply Hk | other_panic | other_panic].
Qed.

Lemma Elem_not_out_of_fuel t : not_out_of_fuel (Elem t).
Proof. induction t; other_panic. Qed.

Lemma Field_not_out_of_fuel t i : not_out_of_fuel (Field t i).
Proof.
  unfold Field. destruct (Fields t) as [fs|]; [|other_panic].
  destruct (fs !! i); other_panic.
Qed.

Lemma BaseStructType_not_out_of_fuel t : not_out_of_fuel (BaseStructType t).
Proof.
  unfold BaseStructType.
  destruct (Kind_of t); try other_panic. apply Elem_not_out_of_fuel.
Qed.

Lemma getFieldmap_loop_not_out_of_fuel t l : ∀ n i m,
  not_out_of_fuel (fst (getFieldmap_loop t l n i m)).
Proof.
  induction n as [|n IH]; intros i m; simpl; [other_panic|].
  pose proof (Field_not_out_of_fuel t i) as H.
  destruct (Field t i) as [f|e|p]; [apply IH | other_panic | other_panic].
Qed.

Lemma getFieldmap_not_out_of_fuel t m :
  not_out_of_fuel (fst (getFieldmap t m)).
Proof.
  unfold getFieldmap.
  pose proof (BaseStructType_not_out_of_fuel t) as Hb.
  destruct (BaseStructType t) as [b|e|p]; [|other_panic|other_panic].
  destruct (fieldmapCache m !! b); [other_panic|].
  unfold NumField. destruct (Fields b) as [fs|]; [|other_panic].
  pose proof (getFieldmap_loop_not_out_of_fuel b (length (fmheap m))
                (length fs) 0 (mkMem (fmheap m ++ [∅]) (fieldmapCache m))) as H.
  destruct (getFieldmap_loop _ _ _ _ _) as [[[]|e|p] m']; other_panic.
Qed.

Lemma setValues_loop_not_out_of_fuel vptr : ∀ flds i vals,
  not_out_of_fuel (setValues_loop vptr flds i vals).
Proof.
  intros flds. induction flds as [|p flds IH]; intros i vals; simpl;
    [other_panic|].
  assert (not_out_of_fuel (Value_Field vptr p)) as H.
  { destruct vptr as [t|]; [apply Field_not_out_of_fuel | other_panic]. }
  destruct (Value_Field vptr p) as [f|e|q]; [|other_panic|other_panic].
  case_decide; [apply IH | other_panic].
Qed.

Lemma appendDest_not_out_of_fuel direct x s :
  not_out_of_fuel (fst (appendDest direct x s)).
Proof.
  unfold appendDest. destruct direct as [dt|]; [|other_panic].
  case_decide; other_panic.
Qed.

Lemma appendDest_cursor direct x s s' :
  appendDest direct x s = (Ok tt, s') → cursor s' = cursor s.
Proof.
  unfold appendDest. destruct direct as [dt|]; [|done].
  case_decide; [|done]. by intros [= <-].
Qed.

(** With more fuel than rows to fetch the loop never stops for lack of
    fuel. *)
Lemma StructScan_loop_enough_fuel base isPtr direct flds : ∀ fuel vals s,
  (∀ rs, cursor s = Some rs → length (pending rs) ≤ fuel) →
  not_out_of_fuel
    (fst (StructScan_loop (S fuel) base isPtr direct flds vals s)).
Proof.
  induction fuel as [|fuel IH]; intros vals s Hlen.
  - simpl. unfold bind at 1. unfold withRows at 1.
    destruct (cursor s) as [rs|] eqn:Hcur; [|other_panic].
    specialize (Hlen rs eq_refl). unfold Rows_Next.
    destruct (closed rs); [other_panic|].
    destruct (pending rs); [other_panic | simpl in Hlen; lia].
  - change (StructScan_loop (S (S fuel)) base isPtr direct flds vals)
      with (more <- withRows (λ rs, let (b, rs') := Rows_Next rs in (Ok b, rs'));;
            if more : bool then
              let v := newRecord base in
              values <- liftR (setValues flds (Some base) vals);;
              r <- withRows (λ rs, (Ok (Rows_Scan rs values v), rs));;
              match r with
              | (Some e, _) => throw e
              | (None, v) =>
                  appendDest direct (if isPtr then EPointer v else EValue v);;;
                  StructScan_loop (S fuel) base isPtr direct flds values
              end
            else ret tt).
    unfold bind at 1. unfold withRows at 1.
    destruct (cursor s) as [rs|] eqn:Hcur; [|other_panic].
    specialize (Hlen rs eq_refl). unfold Rows_Next.
    destruct (closed rs); [other_panic|].
    destruct (pending rs) as [|row rest] eqn:Hpend; [other_panic|].
    simpl in Hlen. cbn zeta.
    apply bind_not_out_of_fuel.
    { apply setValues_loop_not_out_of_fuel. }
    intros vals' s1 [= _ <-].
    apply bind_not_out_of_fuel; [other_panic|].
    intros [[e|] rec] s2; unfold withRows; simpl; intros [= _ <-];
      [other_panic|].
    apply bind_not_out_of_fuel; [apply appendDest_not_out_of_fuel|].
    intros [] s3 Happ. apply IH. intros rs3 Hrs3.
    rewrite (appendDest_cursor _ _ _ _ Happ) in Hrs3. simpl in Hrs3.
    injection Hrs3 as <-. simpl. lia.
Qed.

(** [StructScan] never stops for lack of fuel: the bound on the loop is an
    artifact of the model that no run meets. *)
Lemma StructScan_enough_fuel dest s :
  not_out_of_fuel (fst (StructScan dest s)).
Proof.
  unfold StructScan. case_decide; [other_panic|].
  apply bind_not_out_of_fuel; [destruct dest; other_panic|].
  intros vt s1 [= _ <-].
  apply bind_not_out_of_fuel.
  { unfold liftR, BaseSliceType. simpl. destruct (Kind_of vt); try other_panic.
    apply Elem_not_out_of_fuel. }
  intros sl s1 [= _ <-].
  apply bind_not_out_of_fuel; [apply Elem_not_out_of_fuel|].
  intros selem s1 [= _ <-].
  apply bind_not_out_of_fuel; [apply BaseStructType_not_out_of_fuel|].
  intros base s1 [= _ <-].
  apply bind_not_out_of_fuel.
  { unfold liftMem. pose proof (getFieldmap_not_out_of_fuel base (mem s)).
    destruct (getFieldmap base (mem s)). other_panic. }
  intros fm s1 _.
  apply bind_not_out_of_fuel.
  { unfold withRows. destruct (cursor s1); [|other_panic]. simpl.
    unfold Rows_Columns. destruct (closed _); other_panic. }
  intros cols s2 _.
  apply bind_not_out_of_fuel; [other_panic|]. intros fmv s3 [= _ <-].
  destruct (getFields fmv cols) as [flds [e|]]; [other_panic|].
  apply bind_not_out_of_fuel; [other_panic|]. intros fuel s3 [= <- <-].
  destruct (cursor s2) as [rs|] eqn:Hcur; simpl.
  - apply StructScan_loop_enough_fuel. intros rs' Hrs'. by simplify_eq.
  - unfold bind, withRows. rewrite Hcur. other_panic.
Qed.

(** * Further properties *)

(** ** getFieldmap: outcomes, the cache, the keys *)

Lemma Fields_None t : Kind_of t ≠ Struct → Fields t = None.
Proof. induction t; simpl; try done. Qed.

Lemma Fields_Some t : Kind_of t = Struct → is_Some (Fields t).
Proof. induction t; simpl; try done. Qed.

(** X1: what [getFieldmap] does by the kind of its type, on a consistent
    cache.  A struct type and a pointer to a struct type get a map.  A type
    that is neither a struct nor a pointer gets the must-be-a-struct error
    and memory is untouched.  A pointer to anything but a struct gets no
    error: [BaseStructType] lets it through unchecked and [NumField]
    panics, an empty map having been allocated. *)
Theorem getFieldmap_by_kind t m :
  cache_ok m →
  (Kind_of t = Struct → ∃ l m', getFieldmap t m = (Ok l, m'))
  ∧ (∀ e, Kind_of t = Ptr → Elem t = Ok e → Kind_of e = Struct →
       ∃ l m', getFieldmap t m = (Ok l, m'))
  ∧ (∀ e, Kind_of t = Ptr → Elem t = Ok e → Kind_of e ≠ Struct →
       getFieldmap t m
       = (Panic "reflect: NumField of non-struct type"%string,
          mkMem (fmheap m ++ [∅]) (fieldmapCache m)))
  ∧ (Kind_of t ≠ Struct → Kind_of t ≠ Ptr →
       getFieldmap t m = (Err must_be_struct, m)).
Proof.
  intros Hok. split; [|split; [|split]].
  - intros Hk. destruct (Fields_Some t Hk) as [fs Hfs].
    destruct (getFieldmap_ok t t fs m Hok (BaseStructType_struct t fs Hfs) Hfs)
      as (l & m' & Hg & _). eauto.
  - intros e Hk He Hke. destruct (Fields_Some e Hke) as [fs Hfs].
    destruct (getFieldmap_ok t e fs m Hok (BaseStructType_Ptr t e Hk He) Hfs)
      as (l & m' & Hg & _). eauto.
  - intros e Hk He Hke. unfold getFieldmap.
    rewrite (BaseStructType_Ptr t e Hk He).
    destruct (fieldmapCache m !! e) as [l|] eqn:Hc.
    { destruct (Hok e l Hc) as (fs & Hfs & _).
      rewrite (Fields_None e Hke) in Hfs. done. }
    unfold NumField. by rewrite (Fields_None e Hke).
  - intros H1 H2. unfold getFieldmap.
    by rewrite (BaseStructType_other t H2 H1).
Qed.

Lemma getFieldmap_loop_heap t l : ∀ n i m,
  ∃ f, snd (getFieldmap_loop t l n i m)
       = mkMem (alter f l (fmheap m)) (fieldmapCache m).
Proof.
  induction n as [|n IH]; intros i m; simpl.
  - exists id. destruct m. simpl. f_equal. symmetry. by apply list_alter_id.
  - destruct (Field t i) as [f|e|p].
    + destruct (IH (S i) (fm_store l (fieldName f) i m)) as [g ->].
      eexists. unfold fm_store. simpl. by rewrite list_alter_alter_eq.
    + exists id. destruct m. simpl. f_equal. symmetry. by apply list_alter_id.
    + exists id. destruct m. simpl. f_equal. symmetry. by apply list_alter_id.
Qed.

(** X2: [getFieldmap] never removes or redirects an entry of the cache and
    never writes to a map that is already there, whatever type it is called
    for and whatever it returns; the cache gains at most one entry, for the
    struct type behind the argument. *)
Theorem getFieldmap_keeps_entries t m :
  (∀ t' l fm,
     fieldmapCache m !! t' = Some l →
     fmheap m !! l = Some fm →
     fieldmapCache (snd (getFieldmap t m)) !! t' = Some l
     ∧ fmheap (snd (getFieldmap t m)) !! l = Some fm)
  ∧ (∀ t', fieldmapCache m !! t' = None →
           is_Some (fieldmapCache (snd (getFieldmap t m)) !! t') →
           BaseStructType t = Ok t').
Proof.
  unfold getFieldmap.
  destruct (BaseStructType t) as [b|e|p]; [|split; [done|]|split; [done|]].
  2,3: intros t' Hn [l Hl]; simpl in Hl; congruence.
  destruct (fieldmapCache m !! b) as [lb|] eqn:Hc.
  { split; [done|]. intros t' Hn [l Hl]. simpl in Hl. congruence. }
  destruct (NumField b) as [n|e|p].
  - destruct (getFieldmap_loop_heap b (length (fmheap m)) n 0
                (mkMem (fmheap m ++ [∅]) (fieldmapCache m))) as [f Hf].
    destruct (getFieldmap_loop _ _ _ _ _) as [[[]|e|p] m'];
      simpl in Hf; subst m'; simpl.
    + split.
      * intros t' l fm Ht' Hl.
        assert (l < length (fmheap m)) by (by eapply lookup_lt_Some).
        split.
        -- rewrite lookup_insert_ne; [done|]. intros ->. congruence.
        -- rewrite list_lookup_alter_ne by lia. by rewrite lookup_app_l.
      * intros t' Hn [l Hl]. rewrite lookup_insert in Hl.
        case_decide; [by subst|congruence].
    + split.
      * intros t' l fm Ht' Hl.
        assert (l < length (fmheap m)) by (by eapply lookup_lt_Some).
        split; [done|].
        rewrite list_lookup_alter_ne by lia. by rewrite lookup_app_l.
      * intros t' Hn [l Hl]. congruence.
    + split.
      * intros t' l fm Ht' Hl.
        assert (l < length (fmheap m)) by (by eapply lookup_lt_Some).
        split; [done|].
        rewrite list_lookup_alter_ne by lia. by rewrite lookup_app_l.
      * intros t' Hn [l Hl]. congruence.
  - simpl. split.
    + intros t' l fm Ht' Hl. split; [done|].
      by rewrite lookup_app_l by (by eapply lookup_lt_Some).
    + intros t' Hn [l Hl]. congruence.
  - simpl. split.
    + intros t' l fm Ht' Hl. split; [done|].
      by rewrite lookup_app_l by (by eapply lookup_lt_Some).
    + intros t' Hn [l Hl]. congruence.
Qed.


Lemma getFields_resolved (fm : gmap string nat) cols flds :
  getFields fm cols = (flds, None) →
  Forall2 (λ c p, fm !! c = Some p) cols flds.
Proof.
  intros Hg.
  destruct (columns_split fm cols)
    as [[ps Hres]|(pre & c & post & -> & Hpre & Hc)].
  - rewrite (getFields_ok _ _ _ Hres) in Hg. by injection Hg as <-.
  - pose proof (getFields_unmapped fm pre c post Hpre Hc) as H.
    rewrite Hg in H. done.
Qed.

(** X4: when two fields resolve to the same name, no column ever reaches
    the earlier one: the map [getFieldmap] returns holds its position under
    no key, and [getFields] never returns its position for a column. *)
Theorem shadowed_field_is_never_resolved t b fs m l m' i j f f' :
  cache_ok m →
  BaseStructType t = Ok b → Fields b = Some fs →
  getFieldmap t m = (Ok l, m') →
  fs !! i = Some f → fs !! j = Some f' → i < j →
  fieldName f' = fieldName f →
  (∀ c, fm_deref l m' !! c ≠ Some i)
  ∧ (∀ cols flds, getFields (fm_deref l m') cols = (flds, None) → i ∉ flds).
Proof.
  intros Hok Hb Hfs Hg Hi Hj Hlt Hname.
  destruct (getFieldmap_ok t b fs m Hok Hb Hfs) as (l0 & m0 & Hg0 & _ & Hd & _).
  rewrite Hg in Hg0. injection Hg0 as <- <-. rewrite Hd.
  assert (Hno : ∀ c, descriptor fs !! c ≠ Some i).
  { intros c Hc. apply descriptor_lookup in Hc as (f0 & Hf0 & Hk & Hlast).
    assert (f0 = f) as -> by congruence.
    apply (Hlast j f' Hlt Hj).
    by rewrite <- fieldName_resolvedName, Hname, fieldName_resolvedName. }
  split; [done|].
  intros cols flds Hgf Hin.
  apply getFields_resolved in Hgf.
  apply list_elem_of_lookup in Hin as [k Hk].
  destruct (Forall2_lookup_r _ _ _ _ _ Hgf Hk) as (c & _ & Hc).
  by apply (Hno c).
Qed.

Lemma lower_ascii_idemp c : lower_ascii (lower_ascii c) = lower_ascii c.
Proof.
  destruct c as [[] [] [] [] [] [] [] []]; reflexivity.
Qed.

Lemma strings_ToLower_idemp s :
  strings_ToLower (strings_ToLower s) = strings_ToLower s.
Proof.
  induction s as [|c s IH]; simpl; [done|].
  by rewrite lower_ascii_idemp, IH.
Qed.

(** X5: a column is matched by the exact spelling of a key, and the keys
    are the tags and the lower-cased names: a column name with an
    upper-case letter in it is known to the map [getFieldmap] returns only
    through a field that carries this very name as its tag.  Without tags,
    such a column is unknown and [getFields] fails on it. *)
Theorem upper_case_column_needs_tag t b fs m l m' c :
  cache_ok m →
  BaseStructType t = Ok b → Fields b = Some fs →
  getFieldmap t m = (Ok l, m') →
  strings_ToLower c ≠ c →
  (∀ p, fm_deref l m' !! c = Some p →
        ∃ f, fs !! p = Some f ∧ Tag_db f = c)
  ∧ (Forall (λ f, Tag_db f = ""%string) fs →
     ∀ pre post,
       Forall (λ c', is_Some (fm_deref l m' !! c')) pre →
       snd (getFields (fm_deref l m') (pre ++ c :: post))
       = Some (errors_New
                 ("Could not find name " ++ c ++ " in interface")%string)).
Proof.
  intros Hok Hb Hfs Hg Hup.
  destruct (getFieldmap_ok t b fs m Hok Hb Hfs) as (l0 & m0 & Hg0 & _ & Hd & _).
  rewrite Hg in Hg0. injection Hg0 as <- <-. rewrite Hd.
  assert (Htag : ∀ p, descriptor fs !! c = Some p →
                      ∃ f, fs !! p = Some f ∧ Tag_db f = c).
  { intros p Hp. apply descriptor_lookup in Hp as (f & Hf & Hk & _).
    exists f. split; [done|]. unfold resolvedName in Hk.
    case_decide as Ht; [|done].
    exfalso. apply Hup. by rewrite <- Hk, strings_ToLower_idemp. }
  split; [done|].
  intros Hnotag pre post Hpre. apply getFields_unmapped; [done|].
  destruct (descriptor fs !! c) as [p|] eqn:Hp; [|done].
  destruct (Htag p eq_refl) as (f & Hf & Ht).
  rewrite list.Forall_forall in Hnotag.
  rewrite (Hnotag f) in Ht by (by eapply list_elem_of_lookup_2).
  subst c. done.
Qed.

(** ** setValues: the length of the values *)




(** ** StructScan: the destinations that are no slice *)

Ltac other_error :=
  unfold never_fails_with in *; simpl in *;
  first [ done
        | let e := fresh "e" in intros e [= <-]; (done || eauto) ].

Lemma bind_never_fails_with {S A B} e0 (m : M S A) (k : A → M S B) s :
  never_fails_with e0 (fst (m s)) →
  (∀ a s', m s = (Ok a, s') → never_fails_with e0 (fst (k a s'))) →
  never_fails_with e0 (fst (bind m k s)).
Proof.
  intros Hm Hk. unfold bind.
  destruct (m s) as [[a|e|p] s']; [by apply Hk | other_error | other_error].
Qed.

Lemma Elem_never_fails e0 t : never_fails_with e0 (Elem t).
Proof. induction t; other_error. Qed.

Lemma getFieldmap_loop_never_fails e0 t l : ∀ n i m,
  never_fails_with e0 (fst (getFieldmap_loop t l n i m)).
Proof.
  induction n as [|n IH]; intros i m; simpl; [other_error|].
  unfold Field. destruct (Fields t) as [fs|]; [|other_error].
  destruct (fs !! i); [apply IH | other_error].
Qed.

Lemma BaseStructType_not_must_be_slice t :
  never_fails_with must_be_slice (BaseStructType t).
Proof.
  unfold BaseStructType. destruct (Kind_of t); try other_error.
  apply Elem_never_fails.
Qed.

Lemma getFieldmap_not_must_be_slice t m :
  never_fails_with must_be_slice (fst (getFieldmap t m)).
Proof.
  unfold getFieldmap.
  pose proof (BaseStructType_not_must_be_slice t) as Hb.
  destruct (BaseStructType t) as [b|e|p]; [|other_error|other_error].
  destruct (fieldmapCache m !! b); [other_error|].
  unfold NumField. destruct (Fields b) as [fs|]; [|other_error].
  pose proof (getFieldmap_loop_never_fails must_be_slice b (length (fmheap m))
                (length fs) 0 (mkMem (fmheap m ++ [∅]) (fieldmapCache m))) as H.
  destruct (getFieldmap_loop _ _ _ _ _) as [[[]|e|p] m']; other_error.
Qed.

Lemma getFields_loop_not_must_be_slice fm : ∀ cols i flds flds' e,
  getFields_loop fm cols i flds = (flds', Some e) → e ≠ must_be_slice.
Proof.
  intros cols. induction cols as [|c cols IH]; intros i flds flds' e; simpl.
  - done.
  - destruct (fm !! c); [apply IH|]. by intros [= _ <-].
Qed.

Lemma setValues_loop_never_fails e0 vptr : ∀ flds i vals,
  never_fails_with e0 (setValues_loop vptr flds i vals).
Proof.
  intros flds. induction flds as [|p flds IH]; intros i vals; simpl;
    [other_error|].
  assert (never_fails_with e0 (Value_Field vptr p)) as H.
  { destruct vptr as [t|]; [|other_error]. simpl. unfold Field.
    destruct (Fields t) as [fs|]; [|other_error].
    destruct (fs !! p); other_error. }
  destruct (Value_Field vptr p) as [f|e|q]; [|other_error|other_error].
  case_decide; [apply IH | other_error].
Qed.

Lemma scan_cells_not_errors_New : ∀ dest src i rec e msg,
  fst (scan_cells i dest src rec) = Some e → e ≠ errors_New msg.
Proof.
  induction dest as [|[p|] dest IH]; intros [|sv src] i rec e msg; simpl;
    try done.
  - destruct (convertAssign (fp_type p) sv); [apply IH|]. by intros [= <-].
  - by intros [= <-].
Qed.

Lemma Rows_Scan_not_errors_New rs dest rec e msg :
  fst (Rows_Scan rs dest rec) = Some e → e ≠ errors_New msg.
Proof.
  unfold Rows_Scan. destruct (closed rs); [by intros [= <-]|].
  destruct (lastcols rs); [|by intros [= <-]].
  case_decide; [by intros [= <-]|]. apply scan_cells_not_errors_New.
Qed.

Lemma StructScan_loop_not_must_be_slice base isPtr direct flds : ∀ fuel vals s,
  never_fails_with must_be_slice
    (fst (StructScan_loop fuel base isPtr direct flds vals s)).
Proof.
  induction fuel as [|fuel IH]; intros vals s; [other_error|].
  change (StructScan_loop (S fuel) base isPtr direct flds vals)
    with (more <- withRows (λ rs, let (b, rs') := Rows_Next rs in (Ok b, rs'));;
          if more : bool then
            let v := newRecord base in
            values <- liftR (setValues flds (Some base) vals);;
            r <- withRows (λ rs, (Ok (Rows_Scan rs values v), rs));;
            match r with
            | (Some e, _) => throw e
            | (None, v) =>
                appendDest direct (if isPtr then EPointer v else EValue v);;;
                StructScan_loop fuel base isPtr direct flds values
            end
          else ret tt).
  apply bind_never_fails_with.
  { unfold withRows. destruct (cursor s); [|other_error].
    destruct (Rows_Next _). other_error. }
  intros [|] s1 _; [|other_error]. cbn zeta.
  apply bind_never_fails_with; [apply setValues_loop_never_fails|].
  intros vals' s2 _.
  apply bind_never_fails_with.
  { unfold withRows. destruct (cursor s2); other_error. }
  intros [oe rec] s3 Hscan.
  destruct oe as [e|].
  - unfold withRows in Hscan. destruct (cursor s2) as [rs|]; [|done].
    injection Hscan as Hscan _.
    intros e' [= <-].
    apply (Rows_Scan_not_errors_New rs vals' (newRecord base)).
    by rewrite Hscan.
  - apply bind_never_fails_with; [|intros; apply IH].
    unfold appendDest. destruct direct as [dt|]; [|other_error].
    case_decide; other_error.
Qed.

(** X7: the error "Destination must be a slice." is never returned by
    [StructScan], nor by [Select] once its query has succeeded, whatever
    the destination: [BaseSliceType]
    is only asked about a pointer type and lets every pointer through.  A
    pointer to a struct, or to anything else that has no element type, makes
    [StructScan] panic in [Elem], and [Select] with it, after its query and
    with its cursor closed. *)
Theorem StructScan_never_says_must_be_slice q dest query args s :
  fst (StructScan dest s) ≠ Err must_be_slice
  ∧ (∀ rs, Query q query args = Ok rs →
           fst (Select q dest query args s) ≠ Err must_be_slice)
  ∧ (∀ vt nilptr t rs,
       dest = Dyn vt nilptr → Kind_of vt = Ptr → Elem vt = Ok t →
       Kind_of t ∉ [Array; Chan; Map; Ptr; Slice] →
       StructScan dest s = (Panic "reflect: Elem of invalid type"%string, s)
       ∧ (Query q query args = Ok rs →
          Select q dest query args s
          = (Panic "reflect: Elem of invalid type"%string,
             set_cursor (Some (Rows_Close rs)) (log_query query s)))).
Proof.
  assert (Hnever : ∀ s0, never_fails_with must_be_slice (fst (StructScan dest s0))).
  { intros s0. unfold StructScan. case_decide as Hk; [other_error|].
    apply bind_never_fails_with; [destruct dest; other_error|].
    intros vt s1 Hvt.
    assert (Kind_of vt = Ptr) as Hkvt.
    { destruct dest as [|t np]; [done|]. injection Hvt as -> _.
      simpl in Hk. by destruct (decide (Kind_of vt = Ptr)). }
    apply bind_never_fails_with.
    { unfold liftR, BaseSliceType. simpl. rewrite Hkvt.
      apply Elem_never_fails. }
    intros sl s2 _.
    apply bind_never_fails_with; [apply Elem_never_fails|].
    intros selem s3 _.
    apply bind_never_fails_with; [apply BaseStructType_not_must_be_slice|].
    intros base s4 _.
    apply bind_never_fails_with.
    { unfold liftMem. pose proof (getFieldmap_not_must_be_slice base (mem s4)).
      destruct (getFieldmap base (mem s4)). other_error. }
    intros fm s5 _.
    apply bind_never_fails_with.
    { unfold withRows. destruct (cursor s5); [|other_error]. simpl.
      unfold Rows_Columns. destruct (closed _); other_error. }
    intros cols s6 _.
    apply bind_never_fails_with; [other_error|]. intros fmv s7 _.
    destruct (getFields fmv cols) as [flds [e|]] eqn:Hgf.
    { intros e' [= <-]. unfold getFields in Hgf.
      by apply (getFields_loop_not_must_be_slice _ _ _ _ _ _ Hgf). }
    apply bind_never_fails_with; [other_error|]. intros fuel s8 _.
    apply StructScan_loop_not_must_be_slice. }
  split; [|split].
  - intros H. by apply (Hnever s must_be_slice).
  - intros rs Hq. rewrite (Select_run _ _ _ _ _ _ Hq).
    specialize (Hnever (set_cursor (Some rs) (log_query query s))).
    destruct (StructScan dest _) as [r s']. simpl in *.
    intros ->. by apply (Hnever must_be_slice).
  - intros vt nilptr t rs -> Hk He Hno.
    assert (Elem t = Panic "reflect: Elem of invalid type"%string) as Hpanic.
    { clear -Hno. induction t; simpl in *; try done; try by auto.
      all: exfalso; apply Hno; rewrite !elem_of_cons; tauto. }
    assert (Hss : ∀ s0, StructScan (Dyn vt nilptr) s0
                        = (Panic "reflect: Elem of invalid type"%string, s0)).
    { intros s0. unfold StructScan. simpl.
      rewrite decide_False by (by intros []).
      unfold bind, liftR, BaseSliceType. by rewrite Hk, He, Hpanic. }
    split; [apply Hss|].
    intros Hq. rewrite (Select_run _ _ _ _ _ _ Hq). by rewrite Hss.
Qed.

(** ** Select and StructScan: columns, rows and destinations at the edges *)


Lemma StructScan_prelude_container dest direct isPtr base fs s rs :
  container_of_structs dest direct isPtr base fs →
  cache_ok (mem s) →
  cursor s = Some rs →
  closed rs = false →
  ∃ m',
    cache_ok m'
    ∧ StructScan dest s
      = match getFields (descriptor fs) (columns rs) with
        | (_, Some e) => (Err e, set_mem m' s)
        | (flds, None) =>
            StructScan_loop (S (length (pending rs))) base isPtr direct
              flds (replicate (length (columns rs)) None) (set_mem m' s)
        end.
Proof.
  intros (vt & nilptr & sl & selem & -> & Hvt & Hsl & -> & Hselem & -> & Hb
          & Hfs) Hok Hcur Hcl.
  destruct (getFieldmap_ok base base fs (mem s) Hok
              (BaseStructType_struct base fs Hfs) Hfs)
    as (l & m' & Hg & Hok' & Hd & _).
  exists m'. split; [done|].
  assert (Hin : Indirect (Dyn vt nilptr) = if nilptr then None else Some sl).
  { unfold Indirect. rewrite decide_True by done. by rewrite Hsl. }
  unfold StructScan. rewrite Hin. simpl.
  rewrite decide_False by (by intros []).
  unfold bind at 1. unfold liftR at 1.
  unfold bind at 1. unfold liftR at 1. unfold BaseSliceType. rewrite Hvt, Hsl.
  unfold bind at 1. unfold liftR at 1. rewrite Hselem.
  unfold bind at 1. unfold liftR at 1. rewrite Hb.
  unfold bind at 1. unfold liftMem at 1. rewrite Hg.
  unfold bind at 1. unfold withRows at 1. simpl. rewrite Hcur.
  unfold Rows_Columns. rewrite Hcl.
  unfold bind at 1. unfold gets at 1. simpl. rewrite Hd.
  assert (Hs : set_cursor (Some rs) (set_mem m' s) = set_mem m' s).
  { unfold set_cursor, set_mem. simpl. by rewrite <- Hcur. }
  rewrite Hs.
  destruct (getFields (descriptor fs) (columns rs)) as [flds [e|]]; [done|].
  unfold bind at 1. unfold gets at 1. simpl. by rewrite Hcur.
Qed.

(** X9: [StructScan] looks at what its destination points to only when it
    appends.  On a result without rows it returns nil, with the slice as it
    was and the cursor closed, even for a nil pointer and for a pointer to
    an array or a map of structs.  On a result with rows, the first
    converting, such a destination makes it panic at the first row, the
    field map built, the row fetched and nothing appended. *)
Theorem StructScan_appends_or_panics
    dest direct isPtr base fs s rs ps :
  container_of_structs dest direct isPtr base fs →
  cache_ok (mem s) →
  cursor s = Some rs →
  closed rs = false →
  Forall2 (λ c p, descriptor fs !! c = Some p) (columns rs) ps →
  (pending rs = [] →
     ∃ m', StructScan dest s
           = (Ok tt, mkSt m' (queries s) (Some (Rows_Close rs))
                          (destSlice s) (destStruct s)))
  ∧ (∀ row rest,
       pending rs = row :: rest →
       cells_ok fs ps row →
       ¬ appendable direct →
       ∃ p m', StructScan dest s
               = (Panic p,
                  mkSt m' (queries s)
                       (Some (mksql_Rows (columns rs) rest (Some row) false))
                       (destSlice s) (destStruct s))).
Proof.
  intros Hdest Hok Hcur Hcl Hres.
  destruct (StructScan_prelude_container dest direct isPtr base fs s rs
              Hdest Hok Hcur Hcl) as (m' & Hok' & ->).
  rewrite (getFields_ok _ _ _ Hres).
  destruct Hdest as (_ & _ & _ & _ & _ & _ & _ & _ & _ & _ & _ & Hfs).
  pose proof (resolved_in_range fs _ _ Hres) as Hin.
  destruct rs as [cols pend lc cl]. cbn [columns pending closed] in *.
  subst cl. split.
  - intros ->. exists m'.
    by erewrite StructScan_loop_done.
  - intros row rest -> Hrow Hno. simpl.
    unfold bind at 1. unfold withRows at 1. simpl. rewrite Hcur. simpl.
    unfold bind at 1. unfold liftR at 1.
    rewrite (setValues_ok base fs)
      by (try done; rewrite length_replicate; by apply Forall2_length in Hres).
    unfold bind at 1. unfold withRows at 1. simpl.
    rewrite (Rows_Scan_current _ fs ps row)
      by (try done; by apply (cells_ok_length fs)).
    pose proof (scan_cells_ok fs ps row 0 (newRecord base) Hrow) as Hscan.
    destruct (scan_cells 0 (ptrsOf fs ps) row (newRecord base)) as [oe rec].
    simpl in Hscan. subst oe.
    unfold bind at 1. unfold appendDest.
    destruct direct as [sl|].
    + case_decide as Hk.
      * exfalso. apply Hno. by exists sl.
      * eexists _, m'. reflexivity.
    + eexists _, m'. reflexivity.
Qed.

(** X10: where the error of a failed query comes out.  [Select] returns it
    at once, whatever the destination, with no cursor and memory untouched.
    [Get] is handed it inside the [Row] and looks at the destination first:
    a destination that is no pointer gets the must-pass-a-pointer error
    instead, and a pointer to a struct gets the error of the query only
    after the field map of the struct has been built and cached; the
    cursor is neither read nor closed. *)
Theorem query_error_after_destination_in_Get q dest query args s e :
  (Query q query args = Err e →
     Select q dest query args s = (Err e, log_query query s))
  ∧ (∀ r, QueryRowx q query args = Ok r → err r = Some e →
       (ValueKind dest ≠ Ptr →
          Get q dest query args s
          = (Err must_pass_pointer,
             set_cursor (Some (rows r)) (log_query query s)))
       ∧ (∀ base fs,
            pointer_to_struct dest base fs → cache_ok (mem s) →
            ∃ m',
              Get q dest query args s
              = (Err e,
                 set_mem m' (set_cursor (Some (rows r)) (log_query query s)))
              ∧ is_Some (fieldmapCache m' !! base))).
Proof.
  split.
  - apply Select_query_error.
  - intros r Hq Herr. rewrite (Get_run _ _ _ _ _ _ Hq), Herr. split.
    + intros Hk. unfold Row_StructScan. by rewrite decide_True.
    + intros base fs Hdest Hok.
      pose proof (Indirect_pointer_to_struct _ _ _ Hdest) as Hin.
      destruct Hdest as (vt & -> & Hvt & Hel & Hfs).
      destruct (getFieldmap_ok base base fs (mem s) Hok
                  (BaseStructType_struct base fs Hfs) Hfs)
        as (l & m' & Hg & _ & _ & Hc).
      exists m'. split; [|by eexists].
      unfold Row_StructScan. rewrite Hin. simpl.
      rewrite decide_False by (by intros []).
      unfold bind at 1. unfold liftR at 1.
      unfold bind at 1. unfold liftR at 1.
      rewrite (BaseStructType_struct base fs Hfs).
      unfold bind at 1. unfold liftMem at 1. simpl. rewrite Hg.
      done.
Qed.

(** ** Get and Row.Scan: refusals, scan errors and the cursor *)





(** ** DB, Tx and qStmt: the wrappers of the query *)

(** X13: [QueryRowx] and [Queryx] dereference the rows of the query before
    anyone looks at its error.  When the query fails and gives no rows, as
    [database/sql] does, both panic; so through a [DB] a failing query
    makes [Select], which calls [Query], return the error of the query, and
    makes [Get], which calls [QueryRowx], panic, whatever the
    destination. *)
Theorem failing_query_panics_in_Get db dest query args s e oe :
  DB_Query db query args = (None, oe) →
  (∃ p, DB_Queryx db query args = Panic p)
  ∧ (∃ p, DB_QueryRowx db query args = Panic p)
  ∧ (∃ p, Get (DB_Queryer db) dest query args s = (Panic p, log_query query s))
  ∧ (oe = Some e →
     Select (DB_Queryer db) dest query args s = (Err e, log_query query s)).
Proof.
  intros Hq. unfold DB_Queryx, DB_QueryRowx. rewrite Hq.
  split; [by eexists|]. split; [by eexists|]. split.
  - unfold Get, bind, modify, liftR. simpl. unfold DB_QueryRowx. rewrite Hq.
    by eexists.
  - intros ->. apply Select_query_error. simpl. by rewrite Hq.
Qed.

(** ** Rows.StructScan: the cached positions *)



Lemma Rows_resolve_loop_unmapped fm pre c post ps : ∀ i flds,
  Forall2 (λ c p, fm !! c = Some p) pre ps →
  fm !! c = None →
  i + length (pre ++ c :: post) ≤ length flds →
  Rows_resolve_loop fm (pre ++ c :: post) i flds
  = (take i flds ++ ps ++ drop (i + length pre) flds,
     Some (errors_New ("Could not find name " ++ c ++ " in interface.")%string)).
Proof.
  revert ps. induction pre as [|c0 pre IH]; intros ps i flds HF Hc Hlen.
  - apply Forall2_nil_inv_l in HF as ->. simpl. rewrite Hc.
    by rewrite Nat.add_0_r, take_drop.
  - apply Forall2_cons_inv_l in HF as (p & ps' & Hc0 & HF & ->).
    simpl in *. rewrite Hc0.
    rewrite (IH ps' (S i)); [|done|done|rewrite length_insert; lia].
    f_equal.
    assert (<[i:=p]> flds !! i = Some p) as E.
    { apply list_lookup_insert_eq. lia. }
    rewrite (take_S_r _ _ _ E).
    rewrite take_insert_ge by lia.
    rewrite drop_insert_lt by lia.
    replace (i + S (length pre)) with (S i + length pre) by lia.
    by rewrite <- app_assoc.
Qed.

(** X15: a call of [Rows.StructScan] that fails leaves nothing cached.  A
    destination that is no pointer is refused with the receiver untouched.
    On a closed cursor the call returns the error of [Columns].  On a column
    the field map does not know it returns the error naming the first such
    column; the positions resolved before it are in [r.fields], but
    [started] is still false, so the next call resolves the columns
    afresh.  The struct is untouched in each case. *)
Theorem Rows_StructScan_failure_caches_nothing dest s :
  (ValueKind dest ≠ Ptr →
     Rows_StructScan dest s = (Err must_pass_pointer, s))
  ∧ (∀ base fs,
       pointer_to_struct dest base fs → cache_ok (xmem s) →
       started (xrows s) = false →
       (closed (Rows_sql (xrows s)) = true →
          ∃ m', Rows_StructScan dest s
                = (Err sql_RowsClosed, mkXSt m' (xrows s) (xdest s)))
       ∧ (∀ pre c post ps,
            closed (Rows_sql (xrows s)) = false →
            columns (Rows_sql (xrows s)) = pre ++ c :: post →
            Forall2 (λ c p, descriptor fs !! c = Some p) pre ps →
            descriptor fs !! c = None →
            ∃ m',
              Rows_StructScan dest s
              = (Err (errors_New
                        ("Could not find name " ++ c ++ " in interface.")%string),
                 mkXSt m'
                   (mkRows (Rows_sql (xrows s)) false
                      (ps ++ replicate (S (length post)) 0)
                      (replicate (length (pre ++ c :: post)) None))
                   (xdest s)))).
Proof.
  split.
  - intros Hk. unfold Rows_StructScan. by rewrite decide_True.
  - intros base fs Hdest Hok Hst.
    pose proof (Indirect_pointer_to_struct _ _ _ Hdest) as Hin.
    destruct Hdest as (vt & -> & Hvt & Hel & Hfs).
    destruct (getFieldmap_ok base base fs (xmem s) Hok
                (BaseStructType_struct base fs Hfs) Hfs)
      as (l & m' & Hg & Hok' & Hd & _).
    unfold Rows_StructScan. rewrite Hin. simpl.
    rewrite decide_False by (by intros []).
    unfold bind at 1. unfold gets at 1.
    destruct s as [m [rs st flds vals] d]. simpl in *. subst st.
    split.
    + intros Hcl. exists m'.
      unfold bind, ret, gets, liftR, liftXMem, modify. simpl.
      rewrite Hg. simpl. unfold Rows_Columns. by rewrite Hcl.
    + intros pre c post ps Hcl Hcols Hpre Hc. exists m'.
      unfold bind, ret, gets, liftR, liftXMem, modify. simpl.
      rewrite Hg. simpl. unfold Rows_Columns. rewrite Hcl. simpl.
      rewrite Hd, Hcols.
      rewrite (Rows_resolve_loop_unmapped _ pre c post ps)
        by (try done; by rewrite length_replicate).
      simpl. rewrite drop_replicate, length_app. simpl.
      replace (length pre + S (length post) - length pre)
        with (S (length post)) by lia.
      done.
Qed.


(** ** Select: a column name that comes twice *)



End Properties.

(** * Concurrent callers: properties *)

Local Close Scope string_scope.

(** The two steps, one after the other, are [getFieldmap]. *)
Lemma getFieldmap_begin_end t m :
  getFieldmap t m
  = match getFieldmap_begin t m with
    | (Returned r, m') => (r, m')
    | (Built b fm, m') =>
        match getFieldmap_end b fm m' with
        | (Returned r, m'') => (r, m'')
        | (_, m'') => (Panic "unreachable"%string, m'')
        end
    | (Calling, m') => (Panic "unreachable"%string, m')
    end.
Proof.
  unfold getFieldmap, getFieldmap_begin, getFieldmap_end.
  destruct (BaseStructType t) as [b|e|p]; try done.
  destruct (fieldmapCache m !! b); try done.
  destruct (NumField b) as [n|e|p]; try done.
  by destruct (getFieldmap_loop _ _ _ _ _) as [[[]|e|p] m'].
Qed.

Section Concurrent.
Variables (t b : rtype) (fs : list StructField).
Hypothesis Hbase : BaseStructType t = Ok b.
Hypothesis Hfields : Fields b = Some fs.

Lemma getFieldmap_begin_hit m l :
  fieldmapCache m !! b = Some l →
  getFieldmap_begin t m = (Returned (Ok l), m).
Proof. intros Hc. unfold getFieldmap_begin. by rewrite Hbase, Hc. Qed.

Lemma getFieldmap_begin_miss m :
  fieldmapCache m !! b = None →
  getFieldmap_begin t m
  = (Built b (length (fmheap m)),
     mkMem (fmheap m ++ [descriptor fs]) (fieldmapCache m)).
Proof.
  intros Hc. unfold getFieldmap_begin, NumField.
  rewrite Hbase, Hc, Hfields.
  rewrite (getFieldmap_loop_spec b fs _ Hfields) by done.
  simpl. rewrite drop_0.
  pose proof (alter_app_r (descriptor_from 0 fs) (fmheap m) [∅] 0) as E.
  rewrite Nat.add_0_r in E. by rewrite E.
Qed.

Lemma invariant_start m n :
  cache_ok m → fieldmapCache m !! b = None → invariant b fs (start m n).
Proof.
  intros Hok Hc. split; simpl; try done.
  - intros i b' fm H. apply lookup_replicate in H as [? _]. done.
  - intros i r H. apply lookup_replicate in H as [? _]. done.
Qed.

Lemma cache_ok_grow m fm :
  cache_ok m → cache_ok (mkMem (fmheap m ++ [fm]) (fieldmapCache m)).
Proof.
  intros Hok t' l Hl. destruct (Hok t' l Hl) as (fs' & Hfs' & Hh).
  exists fs'. split; [done|]. simpl.
  by rewrite lookup_app_l by (by eapply lookup_lt_Some).
Qed.

Lemma invariant_step i sys : invariant b fs sys → invariant b fs (step t i sys).
Proof.
  intros [Hok Hbuilt Hret Hfirst Hwriter]. unfold step.
  destruct (goroutines sys !! i) as [[|b' fm|r]|] eqn:Hi;
    [| |by split|by split].
  - (* the lookup *)
    rewrite Hbase.
    destruct (fieldmapCache (shared sys) !! b) as [l|] eqn:Hc.
    + rewrite (getFieldmap_begin_hit _ l Hc).
      destruct (Hok b l Hc) as (fs' & Hfs' & Hl).
      assert (fs' = fs) as -> by congruence.
      assert (trace sys ≠ []) as Hne.
      { intros E. specialize (Hfirst E). congruence. }
      split; simpl.
      * done.
      * intros j b' fm Hj. rewrite list_lookup_insert in Hj.
        case_decide as Hd; [by destruct Hd | ].
        destruct (Hbuilt j b' fm Hj) as (? & ? & ?).
        repeat split; try done. apply elem_of_app. by left.
      * intros j r Hj. rewrite list_lookup_insert in Hj.
        case_decide as Hd.
        -- destruct Hd as [-> _]. injection Hj as <-. split; [by eexists|].
           split; [|by eexists]. apply elem_of_app. right. by apply list_elem_of_singleton.
        -- destruct (Hret j r Hj) as (? & ? & ?).
           repeat split; try done. apply elem_of_app. by left.
      * intros E. by apply app_eq_nil in E as [_ ?].
      * intros _. destruct (Hwriter Hne) as [j [[fm Hj]|Hj]].
        -- exists j. left. exists fm. rewrite list_lookup_insert_ne; [done|].
           intros ->. congruence.
        -- exists j. right. apply elem_of_app. by left.
    + rewrite (getFieldmap_begin_miss _ Hc).
      assert (i < length (goroutines sys)) as Hlt by (by eapply lookup_lt_Some).
      split; simpl.
      * by apply cache_ok_grow.
      * intros j b' fm Hj. rewrite list_lookup_insert in Hj.
        case_decide as Hd.
        -- destruct Hd as [-> _]. injection Hj as <- <-. split; [done|].
           split; [by rewrite lookup_app_r, Nat.sub_diag|].
           apply elem_of_app. right. by apply list_elem_of_singleton.
        -- destruct (Hbuilt j b' fm Hj) as (? & Hh & ?).
           repeat split; try done.
           ++ by rewrite lookup_app_l by (by eapply lookup_lt_Some).
           ++ apply elem_of_app. by left.
      * intros j r Hj. rewrite list_lookup_insert in Hj.
        case_decide as Hd; [by destruct Hd|].
        destruct (Hret j r Hj) as ((l & -> & Hh) & ? & ?).
        split; [|split; [apply elem_of_app; by left | done]].
        exists l. split; [done|].
        by rewrite lookup_app_l by (by eapply lookup_lt_Some).
      * intros E. by apply app_eq_nil in E as [_ ?].
      * intros _. exists i. left. exists (length (fmheap (shared sys))).
        by apply list_lookup_insert_eq.
  - (* the store *)
    destruct (Hbuilt i b' fm Hi) as (-> & Hh & Hr).
    assert (i < length (goroutines sys)) as Hlt by (by eapply lookup_lt_Some).
    unfold getFieldmap_end. split; simpl.
    + intros t' l. simpl. rewrite lookup_insert. case_decide as Hd.
      * subst t'. intros [= <-]. by exists fs.
      * apply Hok.
    + intros j b' fm' Hj. rewrite list_lookup_insert in Hj.
      case_decide as Hd; [by destruct Hd|].
      destruct (Hbuilt j b' fm' Hj) as (? & ? & ?).
      repeat split; try done. apply elem_of_app. by left.
    + intros j r Hj. rewrite list_lookup_insert in Hj.
      case_decide as Hd.
      * destruct Hd as [-> _]. injection Hj as <-. split; [by eexists|].
        split; [apply elem_of_app; by left|].
        rewrite lookup_insert_eq. by eexists.
      * destruct (Hret j r Hj) as (? & ? & ?).
        repeat split; try done; [apply elem_of_app; by left|].
        rewrite lookup_insert. by case_decide.
    + intros E. by apply app_eq_nil in E as [_ ?].
    + intros _. exists i. right. apply elem_of_app. right.
      by apply list_elem_of_singleton.
Qed.

Lemma invariant_run sched : ∀ sys, invariant b fs sys → invariant b fs (run t sched sys).
Proof.
  induction sched as [|i sched IH]; intros sys Hinv; [done|].
  simpl. apply IH. by apply invariant_step.
Qed.

Lemma length_goroutines_step i sys :
  length (goroutines (step t i sys)) = length (goroutines sys).
Proof.
  unfold step. destruct (goroutines sys !! i) as [[|b' fm|r]|]; try done.
  - destruct (getFieldmap_begin t (shared sys)). simpl. by rewrite length_insert.
  - simpl. by rewrite length_insert.
Qed.

Lemma length_goroutines_run sched : ∀ sys,
  length (goroutines (run t sched sys)) = length (goroutines sys).
Proof.
  induction sched as [|i sched IH]; intros sys; [done|].
  simpl. by rewrite IH, length_goroutines_step.
Qed.

Lemma race_free_conflict tr x y :
  race_free tr = true → x ∈ tr → y ∈ tr → conflict x y = false.
Proof.
  unfold race_free. rewrite forallb_forall. intros H Hx Hy.
  apply list_elem_of_In in Hx, Hy. specialize (H x Hx).
  rewrite forallb_forall in H. specialize (H y Hy).
  by destruct (conflict x y).
Qed.

(** C9, amended: [n] goroutines, one or more, call [getFieldmap] for a
    struct type the cache does not hold yet, their lookups and stores
    interleaved in any order, each lookup and each store taken as one step.
    When all have returned, the cache holds an entry for the type, a map
    with the entries of the descriptor, and every goroutine has been
    returned a map with these same entries.  The accesses are not
    synchronised: with two goroutines or more, every such run has a write of
    the cache by one goroutine and an access by another with nothing to
    order them. *)
Theorem concurrent_getFieldmap_one_entry_equal_maps_no_lock m n sched :
  cache_ok m →
  fieldmapCache m !! b = None →
  0 < n →
  all_returned (run t sched (start m n)) = true →
  cache_holds b (descriptor fs) (run t sched (start m n))
  ∧ all_observe (descriptor fs) (run t sched (start m n))
  ∧ (2 ≤ n → race_free (trace (run t sched (start m n))) = false).
Proof.
  intros Hok Hc Hn Hall.
  pose proof (invariant_run sched _ (invariant_start m n Hok Hc)) as Hinv.
  pose proof (length_goroutines_run sched (start m n)) as Hlen.
  simpl in Hlen. rewrite length_replicate in Hlen.
  set (sys := run t sched (start m n)) in *.
  destruct Hinv as [Hok' Hbuilt Hret Hfirst Hwriter].
  unfold all_returned in Hall. rewrite forallb_forall in Hall.
  assert (Hdone : ∀ i, i < n → ∃ r, goroutines sys !! i = Some (Returned r)).
  { intros i Hi. destruct (lookup_lt_is_Some_2 (goroutines sys) i) as [g Hg];
      [lia|].
    specialize (Hall g). destruct g as [| |r]; [| |by eexists].
    - exfalso. assert (false = true); [|done]. apply Hall.
      apply list_elem_of_In. by eapply list_elem_of_lookup_2.
    - exfalso. assert (false = true); [|done]. apply Hall.
      apply list_elem_of_In. by eapply list_elem_of_lookup_2. }
  split; [|split].
  - destruct (Hdone 0 Hn) as [r Hr].
    destruct (Hret 0 r Hr) as (_ & _ & [l Hl]).
    destruct (Hok' b l Hl) as (fs' & Hfs' & Hh).
    assert (fs' = fs) as -> by congruence.
    by exists l.
  - apply list.Forall_forall. intros g Hg.
    apply list_elem_of_lookup in Hg as [i Hi].
    assert (i < n) as Hlt by (rewrite <- Hlen; by eapply lookup_lt_Some).
    destruct (Hdone i Hlt) as [r Hr].
    destruct (Hret i r Hr) as ((l & -> & Hh) & _).
    exists l. split; [congruence|done].
  - intros Hn2.
    destruct (Hdone 0 Hn) as [r0 Hr0].
    destruct (Hret 0 r0 Hr0) as (_ & Hread0 & _).
    destruct Hwriter as [j [[fm Hj]|Hj]].
    { intros E. rewrite E in Hread0. by apply elem_of_nil in Hread0. }
    { assert (j < n) as Hlt by (rewrite <- Hlen; by eapply lookup_lt_Some).
      destruct (Hdone j Hlt) as [r Hr]. congruence. }
    destruct (race_free (trace sys)) eqn:Hrf; [|done].
    exfalso.
    destruct (decide (j = 0)) as [->|Hj0].
    + destruct (Hdone 1 ltac:(lia)) as [r1 Hr1].
      destruct (Hret 1 r1 Hr1) as (_ & Hread1 & _).
      pose proof (race_free_conflict _ _ _ Hrf Hj Hread1) as Hcf.
      by vm_compute in Hcf.
    + pose proof (race_free_conflict _ _ _ Hrf Hj Hread0) as Hcf.
      unfold conflict in Hcf. simpl in Hcf.
      rewrite bool_decide_eq_true_2 in Hcf by done. done.
Qed.

End Concurrent.

(** * The examples of the specification, and instances *)

#[local] Existing Instance sampleDriver.
Local Open Scope string_scope.

Example getFieldmap_User :
  match getFieldmap User emptyMem with
  | (Ok l, m) => fmheap m !! l = Some ({["id" := 0; "name" := 1]} : gmap string nat)
                 ∧ fieldmapCache m !! User = Some l
  | _ => False
  end.
Proof. vm_compute. split; reflexivity. Qed.

(** The first example of the specification: columns [name], [id] and the
    row [Ann], 7 give the record with [ID] 7 and [Name] Ann. *)
Example Select_User_by_name :
  let r := Select (answering people) (Dyn (TPtr (TSlice User)) false)
             "SELECT name, id FROM users" [] fresh in
  fst r = Ok tt
  ∧ destSlice (snd r)
    = [EValue [SInt 7; SStr "Ann"]; EValue [SInt 8; SStr "Bob"]].
Proof. vm_compute. by split. Qed.

(** The second example: columns [id], [email] fail on [email]. *)
Example Select_User_unmapped_email :
  let r := Select (answering with_email) (Dyn (TPtr (TSlice User)) false)
             "SELECT id, email FROM users" [] fresh in
  fst r = Err (errors_New "Could not find name email in interface")
  ∧ destSlice (snd r) = [].
Proof. vm_compute. by split. Qed.

(** C4: [Get] into a [User] on a result with the column [email]: it returns
    the unmapped-column error and the cursor of its query is still open,
    every row pending; [Select] on the same result returns the same error
    with the cursor closed. *)
Theorem Get_returns_with_cursor_open :
  let g := Get (answering with_email) (Dyn (TPtr User) false)
             "SELECT id, email FROM users" [] fresh in
  let s := Select (answering with_email) (Dyn (TPtr (TSlice User)) false)
             "SELECT id, email FROM users" [] fresh in
  fst g = Err (errors_New "Could not find name email in interface")
  ∧ cursor (snd g) = Some with_email
  ∧ closed with_email = false
  ∧ fst s = fst g
  ∧ cursor (snd s) = Some (Rows_Close with_email).
Proof. vm_compute. by repeat split. Qed.

(** C5 as stated fails: an [int] is no destination, and [Select] and [Get]
    refuse it only after the query has been executed and the cursor
    obtained. *)
Lemma destination_not_checked_before_query :
  ¬ fails_before_query
      (Select (answering people) (Dyn (TBasic Int) false) "SELECT 1" []) fresh
  ∧ ¬ fails_before_query
      (Get (answering people) (Dyn (TBasic Int) false) "SELECT 1" []) fresh.
Proof.
  split; intros (e & s' & Hrun & Hq & _); vm_compute in Hrun;
    injection Hrun as _ <-; discriminate Hq.
Qed.

(** C9 as stated fails: two goroutines that both miss the lookup both store
    their map, two writes of the cache that nothing orders. *)
Lemma concurrent_getFieldmap_races :
  ¬ concurrent_claim User User_fields
      (run User [0; 1; 0; 1] (start emptyMem 2)).
Proof.
  intros H. destruct H as (_ & _ & Hrf); [by vm_compute|].
  by vm_compute in Hrf.
Qed.

(** ** Instances of the theorems *)

Lemma User_is_struct : Fields User = Some User_fields.
Proof. reflexivity. Qed.

(** The descriptor of [User], built on an empty cache. *)
Lemma getFieldmap_resolves_fields_witness :
  ∃ l m',
    getFieldmap User emptyMem = (Ok l, m')
    ∧ fm_deref l m' = descriptor User_fields
    ∧ (∀ f, fieldName f
            = if decide (Tag_db f = "") then strings_ToLower (Name f)
              else Tag_db f)
    ∧ (∀ k p, fm_deref l m' !! k = Some p ↔
         ∃ f, User_fields !! p = Some f ∧ fieldName f = k
              ∧ ∀ j f', p < j → User_fields !! j = Some f' → fieldName f' ≠ k)
    ∧ (NoDup (fieldName <$> User_fields) →
       ∀ i f, User_fields !! i = Some f →
              fm_deref l m' !! fieldName f = Some i).
Proof.
  apply (getFieldmap_resolves_fields User User User_fields emptyMem).
  - apply cache_ok_empty.
  - reflexivity.
  - reflexivity.
Defined.



(** [Select] and [Get] on the columns [id], [email]. *)
Lemma unmapped_column_fails_before_any_scan_witness :
  (∃ pre c post s',
     columns with_email = (pre ++ c :: post)%list
     ∧ Forall (λ c', is_Some (descriptor User_fields !! c')) pre
     ∧ descriptor User_fields !! c = None
     ∧ Select (answering with_email) (Dyn (TPtr (TSlice User)) false)
         "SELECT id, email FROM users" [] fresh
       = (Err (errors_New ("Could not find name " ++ c ++ " in interface")), s')
     ∧ destSlice s' = destSlice fresh ∧ destStruct s' = destStruct fresh
     ∧ (pending <$> cursor s') = Some (pending with_email)
     ∧ (lastcols <$> cursor s') = Some (lastcols with_email))
  ∧ (∃ pre c post s',
     columns (rows (mkRow with_email None)) = (pre ++ c :: post)%list
     ∧ Forall (λ c', is_Some (descriptor User_fields !! c')) pre
     ∧ descriptor User_fields !! c = None
     ∧ Get (answering with_email) (Dyn (TPtr User) false)
         "SELECT id, email FROM users" [] fresh
       = (Err (errors_New ("Could not find name " ++ c ++ " in interface")), s')
     ∧ destSlice s' = destSlice fresh ∧ destStruct s' = destStruct fresh
     ∧ (pending <$> cursor s') = Some (pending (rows (mkRow with_email None)))
     ∧ (lastcols <$> cursor s')
       = Some (lastcols (rows (mkRow with_email None)))).
Proof.
  destruct (unmapped_column_fails_before_any_scan (answering with_email)
              "SELECT id, email FROM users" [] User_fields fresh
              cache_ok_empty) as [HS HG].
  split.
  - apply (HS (Dyn (TPtr (TSlice User)) false) false User with_email).
    + apply slice_of_structs_value. reflexivity.
    + reflexivity.
    + reflexivity.
    + exists "email". split; [|reflexivity].
      apply list_elem_of_In. simpl. auto.
  - apply (HG (Dyn (TPtr User) false) User (mkRow with_email None)).
    + apply pointer_to_struct_TPtr. reflexivity.
    + reflexivity.
    + reflexivity.
    + reflexivity.
    + exists "email". split; [|reflexivity].
      apply list_elem_of_In. simpl. auto.
Defined.




(** An [int], the nil interface, a pointer to a slice of [int] and a
    pointer to a [string] as destinations. *)
Lemma destination_checked_after_query_witness :
  Select (answering people) (Dyn (TBasic Int) false) "SELECT 1" [] fresh
  = (Err must_pass_pointer,
     set_cursor (Some (Rows_Close people)) (log_query "SELECT 1" fresh))
  ∧ Get (answering people) INil "SELECT 1" [] fresh
    = (Err must_pass_pointer,
       set_cursor (Some people) (log_query "SELECT 1" fresh))
  ∧ Select (answering people) (Dyn (TPtr (TSlice (TBasic Int))) false)
      "SELECT 1" [] fresh
    = (Err must_be_struct,
       set_cursor (Some (Rows_Close people)) (log_query "SELECT 1" fresh))
  ∧ Get (answering people) (Dyn (TPtr (TBasic String)) false)
      "SELECT 1" [] fresh
    = (Err must_be_struct,
       set_cursor (Some people) (log_query "SELECT 1" fresh)).
Proof.
  split; [|split; [|split]].
  - apply (destination_checked_after_query (answering people)
             (Dyn (TBasic Int) false) "SELECT 1" [] fresh);
      [discriminate | reflexivity].
  - apply (proj2 (proj1 (destination_checked_after_query (answering people)
                           INil "SELECT 1" [] fresh) ltac:(discriminate))
             (mkRow people None)).
    reflexivity.
  - apply (proj1 (proj2 (destination_checked_after_query (answering people)
                           (Dyn (TPtr (TSlice (TBasic Int))) false)
                           "SELECT 1" [] fresh))
             (TPtr (TSlice (TBasic Int))) false (TSlice (TBasic Int))
             (TBasic Int) people); try reflexivity.
    left. split; discriminate.
  - apply (proj2 (proj2 (destination_checked_after_query (answering people)
                           (Dyn (TPtr (TBasic String)) false)
                           "SELECT 1" [] fresh))
             (TPtr (TBasic String)) (TBasic String) (mkRow people None));
      try reflexivity.
    left. split; discriminate.
Defined.

(** Two goroutines that both miss the lookup before either stores. *)
Lemma concurrent_getFieldmap_witness :
  cache_holds User (descriptor User_fields)
    (run User [0; 1; 0; 1] (start emptyMem 2))
  ∧ all_observe (descriptor User_fields)
      (run User [0; 1; 0; 1] (start emptyMem 2))
  ∧ ((2 ≤ 2)%nat →
     race_free (trace (run User [0; 1; 0; 1] (start emptyMem 2))) = false).
Proof.
  apply (concurrent_getFieldmap_one_entry_equal_maps_no_lock User User
           User_fields eq_refl eq_refl emptyMem 2 [0; 1; 0; 1]).
  - apply cache_ok_empty.
  - reflexivity.
  - lia.
  - reflexivity.
Defined.

(** ** Instances of the further properties *)

(** [User], a pointer to it, a pointer to an [int] and an [int]. *)
Lemma getFieldmap_by_kind_witness :
  (∃ l m', getFieldmap User emptyMem = (Ok l, m'))
  ∧ (∃ l m', getFieldmap (TPtr User) emptyMem = (Ok l, m'))
  ∧ getFieldmap (TPtr (TBasic Int)) emptyMem
    = (Panic "reflect: NumField of non-struct type",
       mkMem (fmheap emptyMem ++ [∅])%list (fieldmapCache emptyMem))
  ∧ getFieldmap (TBasic Int) emptyMem = (Err must_be_struct, emptyMem).
Proof.
  split; [|split; [|split]].
  - apply (proj1 (getFieldmap_by_kind User emptyMem cache_ok_empty)).
    reflexivity.
  - apply (proj1 (proj2 (getFieldmap_by_kind (TPtr User) emptyMem
                           cache_ok_empty)) User); reflexivity.
  - apply (proj1 (proj2 (proj2 (getFieldmap_by_kind (TPtr (TBasic Int))
                                  emptyMem cache_ok_empty))) (TBasic Int));
      [reflexivity | reflexivity | discriminate].
  - apply (proj2 (proj2 (proj2 (getFieldmap_by_kind (TBasic Int) emptyMem
                                  cache_ok_empty)))); discriminate.
Defined.

(** A call for [Legacy] on a cache that holds the map of [User]. *)
Lemma getFieldmap_keeps_entries_witness :
  (fieldmapCache (snd (getFieldmap Legacy (snd (getFieldmap User emptyMem))))
     !! User = Some 0%nat
   ∧ fmheap (snd (getFieldmap Legacy (snd (getFieldmap User emptyMem))))
       !! 0%nat = Some (descriptor User_fields))
  ∧ BaseStructType (TPtr Legacy) = Ok Legacy.
Proof.
  split.
  - apply (proj1 (getFieldmap_keeps_entries Legacy
                    (snd (getFieldmap User emptyMem)))
             User 0%nat (descriptor User_fields)); reflexivity.
  - apply (proj2 (getFieldmap_keeps_entries (TPtr Legacy)
                    (snd (getFieldmap User emptyMem))) Legacy).
    + reflexivity.
    + vm_compute. by eexists.
Defined.


(** The field [OldID] of [Legacy], shadowed by [ID]. *)
Lemma shadowed_field_is_never_resolved_witness :
  ∃ l m',
    getFieldmap Legacy emptyMem = (Ok l, m')
    ∧ (∀ c, fm_deref l m' !! c ≠ Some 0%nat)
    ∧ (∀ cols flds,
         getFields (fm_deref l m') cols = (flds, None) → 0%nat ∉ flds).
Proof.
  exists 0%nat, (snd (getFieldmap Legacy emptyMem)).
  split; [reflexivity|].
  apply (shadowed_field_is_never_resolved Legacy Legacy Legacy_fields
           emptyMem 0%nat (snd (getFieldmap Legacy emptyMem)) 0%nat 1%nat
           (mkStructField "OldID" "id" (TBasic Int))
           (mkStructField "ID" "" (TBasic Int)) cache_ok_empty);
    try reflexivity.
  lia.
Defined.

(** The column [Name] on the untagged struct [Plain]. *)
Lemma upper_case_column_needs_tag_witness :
  ∃ l m',
    getFieldmap Plain emptyMem = (Ok l, m')
    ∧ (∀ p, fm_deref l m' !! "Name" = Some p →
            ∃ f, Plain_fields !! p = Some f ∧ Tag_db f = "Name")
    ∧ snd (getFields (fm_deref l m') ["age"; "Name"])
      = Some (errors_New "Could not find name Name in interface").
Proof.
  exists 0%nat, (snd (getFieldmap Plain emptyMem)).
  split; [reflexivity|].
  destruct (upper_case_column_needs_tag Plain Plain Plain_fields emptyMem
              0%nat (snd (getFieldmap Plain emptyMem)) "Name" cache_ok_empty)
    as [H1 H2]; try reflexivity.
  - discriminate.
  - split; [exact H1|].
    apply (H2 ltac:(repeat constructor) ["age"] []).
    repeat constructor. vm_compute. by eexists.
Defined.


(** A pointer to a struct where a pointer to a slice is wanted. *)
Lemma StructScan_never_says_must_be_slice_witness :
  StructScan (Dyn (TPtr User) false) fresh
  = (Panic "reflect: Elem of invalid type", fresh)
  ∧ Select (answering people) (Dyn (TPtr User) false) "SELECT 1" [] fresh
    = (Panic "reflect: Elem of invalid type",
       set_cursor (Some (Rows_Close people)) (log_query "SELECT 1" fresh))
  ∧ fst (Select (answering people) (Dyn (TPtr User) false) "SELECT 1" []
           fresh) ≠ Err must_be_slice.
Proof.
  destruct (StructScan_never_says_must_be_slice (answering people)
              (Dyn (TPtr User) false) "SELECT 1" [] fresh) as (_ & H2 & H3).
  destruct (H3 (TPtr User) false User people eq_refl eq_refl eq_refl)
    as [Ha Hb].
  { simpl. rewrite !elem_of_cons, elem_of_nil.
    intros [H|[H|[H|[H|[H|[]]]]]]; discriminate H. }
  split; [exact Ha|]. split; [exact (Hb eq_refl)|].
  apply (H2 people eq_refl).
Defined.


(** A nil pointer to a slice of [User], on a result without rows and on one
    with rows. *)
Lemma StructScan_appends_or_panics_witness :
  (∃ m', StructScan (Dyn (TPtr (TSlice User)) true)
           (set_cursor (Some no_rows) fresh)
         = (Ok tt, mkSt m' [] (Some (Rows_Close no_rows)) []
                        [SInt 0; SStr ""]))
  ∧ (∃ p m', StructScan (Dyn (TPtr (TSlice User)) true)
               (set_cursor (Some people) fresh)
             = (Panic p,
                mkSt m' []
                  (Some (mksql_Rows ["name"; "id"] [[SStr "Bob"; SInt 8]]
                           (Some [SStr "Ann"; SInt 7]) false))
                  [] [SInt 0; SStr ""])).
Proof.
  assert (Hc : container_of_structs (Dyn (TPtr (TSlice User)) true) None
                 false User User_fields).
  { exists (TPtr (TSlice User)), true, (TSlice User), User.
    repeat split. }
  assert (Hres : Forall2 (λ c p, descriptor User_fields !! c = Some p)
                   ["name"; "id"] [1; 0]%nat).
  { repeat constructor. }
  split.
  - apply (proj1 (StructScan_appends_or_panics
                    (Dyn (TPtr (TSlice User)) true) None false User
                    User_fields (set_cursor (Some no_rows) fresh) no_rows
                    [1; 0]%nat Hc cache_ok_empty eq_refl eq_refl Hres)).
    reflexivity.
  - apply (proj2 (StructScan_appends_or_panics
                    (Dyn (TPtr (TSlice User)) true) None false User
                    User_fields (set_cursor (Some people) fresh) people
                    [1; 0]%nat Hc cache_ok_empty eq_refl eq_refl Hres)
             [SStr "Ann"; SInt 7] [[SStr "Bob"; SInt 8]]).
    + reflexivity.
    + repeat constructor; eexists; (split; [reflexivity|by eexists]).
    + intros (sl & Hsl & _). discriminate Hsl.
Defined.

(** A queryer that has lost its connection. *)
Lemma query_error_after_destination_in_Get_witness :
  Select (failing connection_lost) (Dyn (TPtr (TSlice User)) false)
    "SELECT 1" [] fresh
  = (Err connection_lost, log_query "SELECT 1" fresh)
  ∧ Get (failing connection_lost) (Dyn (TBasic Int) false) "SELECT 1" []
      fresh
    = (Err must_pass_pointer,
       set_cursor (Some no_rows) (log_query "SELECT 1" fresh))
  ∧ ∃ m',
      Get (failing connection_lost) (Dyn (TPtr User) false) "SELECT 1" []
        fresh
      = (Err connection_lost,
         set_mem m' (set_cursor (Some no_rows) (log_query "SELECT 1" fresh)))
      ∧ is_Some (fieldmapCache m' !! User).
Proof.
  split; [|split].
  - apply (proj1 (query_error_after_destination_in_Get
                    (failing connection_lost)
                    (Dyn (TPtr (TSlice User)) false) "SELECT 1" [] fresh
                    connection_lost)).
    reflexivity.
  - apply (proj1 (proj2 (query_error_after_destination_in_Get
                           (failing connection_lost)
                           (Dyn (TBasic Int) false) "SELECT 1" [] fresh
                           connection_lost)
                    (mkRow no_rows (Some connection_lost))
                    eq_refl eq_refl)).
    discriminate.
  - apply (proj2 (proj2 (query_error_after_destination_in_Get
                           (failing connection_lost)
                           (Dyn (TPtr User) false) "SELECT 1" [] fresh
                           connection_lost)
                    (mkRow no_rows (Some connection_lost))
                    eq_refl eq_refl) User User_fields).
    + apply pointer_to_struct_TPtr. reflexivity.
    + apply cache_ok_empty.
Defined.



(** A database that has lost its connection. *)
Lemma failing_query_panics_in_Get_witness :
  (∃ p, DB_Queryx (failing_DB connection_lost) "SELECT 1" [] = Panic p)
  ∧ (∃ p, DB_QueryRowx (failing_DB connection_lost) "SELECT 1" [] = Panic p)
  ∧ (∃ p, Get (DB_Queryer (failing_DB connection_lost))
            (Dyn (TPtr User) false) "SELECT 1" [] fresh
          = (Panic p, log_query "SELECT 1" fresh))
  ∧ Select (DB_Queryer (failing_DB connection_lost))
      (Dyn (TPtr User) false) "SELECT 1" [] fresh
    = (Err connection_lost, log_query "SELECT 1" fresh).
Proof.
  destruct (failing_query_panics_in_Get (failing_DB connection_lost)
              (Dyn (TPtr User) false) "SELECT 1" [] fresh connection_lost
              (Some connection_lost) eq_refl) as (H1 & H2 & H3 & H4).
  split; [exact H1|]. split; [exact H2|]. split; [exact H3|].
  exact (H4 eq_refl).
Defined.


(** An [int] as destination, a closed cursor, and the columns [id],
    [email]. *)
Lemma Rows_StructScan_failure_caches_nothing_witness :
  Rows_StructScan (Dyn (TBasic Int) false)
    (scanning (unstarted people) [SInt 0; SStr ""])
  = (Err must_pass_pointer, scanning (unstarted people) [SInt 0; SStr ""])
  ∧ (∃ m', Rows_StructScan (Dyn (TPtr User) false)
             (scanning (unstarted closed_cursor) [SInt 0; SStr ""])
           = (Err sql_RowsClosed,
              mkXSt m' (unstarted closed_cursor) [SInt 0; SStr ""]))
  ∧ (∃ m', Rows_StructScan (Dyn (TPtr User) false)
             (scanning (unstarted with_email) [SInt 0; SStr ""])
           = (Err (errors_New "Could not find name email in interface."),
              mkXSt m' (mkRows with_email false [0; 0]%nat [None; None])
                    [SInt 0; SStr ""])).
Proof.
  split; [|split].
  - apply (proj1 (Rows_StructScan_failure_caches_nothing
                    (Dyn (TBasic Int) false)
                    (scanning (unstarted people) [SInt 0; SStr ""]))).
    discriminate.
  - apply (proj1 (proj2 (Rows_StructScan_failure_caches_nothing
                           (Dyn (TPtr User) false)
                           (scanning (unstarted closed_cursor)
                              [SInt 0; SStr ""]))
                    User User_fields
                    (pointer_to_struct_TPtr User User_fields eq_refl)
                    cache_ok_empty eq_refl)).
    reflexivity.
  - apply (proj2 (proj2 (Rows_StructScan_failure_caches_nothing
                           (Dyn (TPtr User) false)
                           (scanning (unstarted with_email)
                              [SInt 0; SStr ""]))
                    User User_fields
                    (pointer_to_struct_TPtr User User_fields eq_refl)
                    cache_ok_empty eq_refl)
             ["id"] "email" [] [0%nat]); try reflexivity.
    repeat constructor.
Defined.



(** [Select] failing on the column [email]: the cursor is closed. *)
Lemma Select_closes_cursor_witness :
  ∃ rs', cursor (snd (Select (answering with_email)
                        (Dyn (TPtr (TSlice User)) false)
                        "SELECT id, email FROM users" [] fresh))
         = Some rs'
         ∧ closed rs' = true.
Proof.
  apply (Select_closes_cursor (answering with_email)
           (Dyn (TPtr (TSlice User)) false) "SELECT id, email FROM users" []
           fresh with_email).
  reflexivity.
Defined.
